(** * arrayRemoveDuplicates (Source/Core/arrayRemoveDuplicates.js)

    A shallow embedding of Cesium's [arrayRemoveDuplicates] and the
    properties of it that the specification states.

    JavaScript arrays are mutable objects with identity, so the embedding
    keeps a store of arrays: a reference is an index into the store, a new
    array is allocated at the end of the store, and [push] and [shift]
    update the array in place.  The calls made on the [objectType] argument
    are recorded in a trace, in the order in which the code makes them. *)

From Stdlib Require Import QArith Qabs String Lia.
From stdpp Require Import base option list.

Close Scope Q_scope.
Local Open Scope nat_scope.

(** ** Data model *)

(** [objectType]: the object whose [equalsEpsilon(left, right, epsilon)] and
    [clone(value)] methods the function calls. *)
Record ObjectType (V : Type) : Type := {
  equalsEpsilon : V → V → Q → bool;
  clone : V → V
}.
Arguments equalsEpsilon {V} _ _ _ _.
Arguments clone {V} _ _.

(** [var removeDuplicatesEpsilon = CesiumMath.EPSILON10;]
    Modelled from the spec: [CesiumMath.EPSILON10] lives in [./Math], which
    is not part of the sources at hand; the specification gives its value,
    1e-10. *)
Definition removeDuplicatesEpsilon : Q := (1 # 10000000000)%Q.

(** [new DeveloperError(message)], the only exception the function
    constructs. *)
Inductive Error : Type :=
  | DeveloperError (message : string).

(** Calls on [objectType], as recorded in the trace. *)
Inductive Event (V : Type) : Type :=
  | EqualsEpsilonCall (left right : V) (epsilon : Q)
  | CloneCall (value : V).
Arguments EqualsEpsilonCall {V} _ _ _.
Arguments CloneCall {V} _.

(** An array reference. *)
Definition loc : Type := nat.

Record State (V : Type) : Type := {
  heap : list (list V);
  trace : list (Event V)
}.
Arguments heap {V} _.
Arguments trace {V} _.

(** How a computation ends: with a value, with a thrown exception, or
    [Stuck], which stands for what no JavaScript run does (a reference
    that points nowhere, a loop that outlives its bound). *)
Inductive Completion (A : Type) : Type :=
  | Normal (a : A)
  | Throw (e : Error)
  | Stuck.
Arguments Normal {A} _.
Arguments Throw {A} _.
Arguments Stuck {A}.

(** ** The state and exception monad *)

Definition M (V A : Type) : Type := State V → Completion A * State V.

Definition ret {V A} (a : A) : M V A := λ s, (Normal a, s).

Definition bind {V A B} (m : M V A) (f : A → M V B) : M V B :=
  λ s, match m s with
       | (Normal a, s') => f a s'
       | (Throw e, s') => (Throw e, s')
       | (Stuck, s') => (Stuck, s')
       end.

Definition throw {V A} (e : Error) : M V A := λ s, (Throw e, s).

Definition stuck {V A} : M V A := λ s, (Stuck, s).

Declare Scope js_scope.
Delimit Scope js_scope with js.
Notation "x <- m ;; k" := (bind m (λ x, k))
  (at level 100, m at next level, right associativity) : js_scope.
Local Open Scope js_scope.

(** [a && b] on computations: [b] runs only when [a] yields true. *)
Definition andM {V} (a b : M V bool) : M V bool :=
  x <- a ;; if x then b else ret false.

(** [defined(value)]: neither [undefined] nor [null]. *)
Definition defined {A} (value : option A) : bool :=
  match value with Some _ => true | None => false end.

(** [defaultValue(a, b)]. *)
Definition defaultValue {A} (a : option A) (b : A) : A :=
  match a with Some x => x | None => b end.

Section Filter.
Context {V : Type} `{!Inhabited V}.

(** The value JavaScript gives for an unassigned [var] and for an array
    read out of range. *)
Definition undefined : V := inhabitant.

(** *** Array operations *)

(** [new Array] holding [l]: the next free reference. *)
Definition array_alloc (l : list V) : M V loc :=
  λ s, (Normal (length (heap s)),
        {| heap := heap s ++ [l]; trace := trace s |}).

(** [a.length] *)
Definition array_length (a : loc) : M V nat :=
  λ s, match heap s !! a with
       | Some l => (Normal (length l), s)
       | None => (Stuck, s)
       end.

(** [a[i]] *)
Definition array_get (a : loc) (i : nat) : M V V :=
  λ s, match heap s !! a with
       | Some l => (Normal (default undefined (l !! i)), s)
       | None => (Stuck, s)
       end.

(** [a.slice(begin, end)] with [0 <= begin], [0 <= end]: a new array. *)
Definition array_slice (a : loc) (begin end_ : nat) : M V loc :=
  λ s, match heap s !! a with
       | Some l => array_alloc (take (end_ - begin) (drop begin l)) s
       | None => (Stuck, s)
       end.

(** [a.slice(begin)] with [0 <= begin]: a new array. *)
Definition array_slice_from (a : loc) (begin : nat) : M V loc :=
  λ s, match heap s !! a with
       | Some l => array_alloc (drop begin l) s
       | None => (Stuck, s)
       end.

(** [a.push(v)]: appends in place, yields the new length. *)
Definition array_push (a : loc) (v : V) : M V nat :=
  λ s, match heap s !! a with
       | Some l => (Normal (S (length l)),
                    {| heap := <[a := l ++ [v]]> (heap s); trace := trace s |})
       | None => (Stuck, s)
       end.

(** [a.shift()]: removes the first element in place and yields it. *)
Definition array_shift (a : loc) : M V V :=
  λ s, match heap s !! a with
       | Some l => (Normal (default undefined (head l)),
                    {| heap := <[a := tail l]> (heap s); trace := trace s |})
       | None => (Stuck, s)
       end.

(** *** Calls on [objectType] *)

Definition call_equalsEpsilon (objectType : ObjectType V)
    (left right : V) (epsilon : Q) : M V bool :=
  λ s, (Normal (equalsEpsilon objectType left right epsilon),
        {| heap := heap s;
           trace := trace s ++ [EqualsEpsilonCall left right epsilon] |}).

Definition call_clone (objectType : ObjectType V) (value : V) : M V V :=
  λ s, (Normal (clone objectType value),
        {| heap := heap s; trace := trace s ++ [CloneCall value] |}).

(** *** The two loops

    Each loop carries the variables it assigns ([i], [v0], [v1]) and
    yields their values at exit.  [fuel] bounds the number of tests of
    the loop condition. *)

(** [for (i = 1; i < length; ++i) { v0 = values[i - 1]; v1 = values[i];
      if (objectType.equalsEpsilon(v0, v1, removeDuplicatesEpsilon)) break; }] *)
Fixpoint scanLoop (fuel : nat) (values : loc) (objectType : ObjectType V)
    (length i : nat) (v0 v1 : V) : M V (nat * V * V) :=
  match fuel with
  | O => stuck
  | S fuel =>
      if i <? length then
        v0 <- array_get values (i - 1) ;;
        v1 <- array_get values i ;;
        b <- call_equalsEpsilon objectType v0 v1 removeDuplicatesEpsilon ;;
        if b then ret (i, v0, v1)
        else scanLoop fuel values objectType length (i + 1) v0 v1
      else ret (i, v0, v1)
  end.

(** [for (; i < length; ++i) { v1 = values[i];
      if (!objectType.equalsEpsilon(v0, v1, removeDuplicatesEpsilon)) {
        cleanedvalues.push(objectType.clone(v1)); v0 = v1; } }] *)
Fixpoint cleanLoop (fuel : nat) (values : loc) (objectType : ObjectType V)
    (cleanedvalues : loc) (length i : nat) (v0 v1 : V) : M V (nat * V * V) :=
  match fuel with
  | O => stuck
  | S fuel =>
      if i <? length then
        v1 <- array_get values i ;;
        b <- call_equalsEpsilon objectType v0 v1 removeDuplicatesEpsilon ;;
        if negb b then
          c <- call_clone objectType v1 ;;
          _ <- array_push cleanedvalues c ;;
          cleanLoop fuel values objectType cleanedvalues length (i + 1) v1 v1
        else
          cleanLoop fuel values objectType cleanedvalues length (i + 1) v0 v1
      else ret (i, v0, v1)
  end.

(** *** [arrayRemoveDuplicates(values, objectType, wrapAround)]

    An argument that is [undefined] or [null] is [None]. *)
Definition arrayRemoveDuplicates (values : option loc)
    (objectType : option (ObjectType V)) (wrapAround : option bool) : M V loc :=
  match values with
  | None => throw (DeveloperError "values is required.")
  | Some values =>
  match objectType with
  | None => throw (DeveloperError "objectType is required.")
  | Some objectType =>
    let wrapAround := defaultValue wrapAround false in
    length <- array_length values ;;
    if length <? 2 then ret values else
    vars <- scanLoop (S length) values objectType length 1
              undefined undefined ;;
    let '(i, v0, v1) := vars in
    if i =? length then
      b <- andM (ret wrapAround)
             (first <- array_get values 0 ;;
              n <- array_length values ;;
              last <- array_get values (n - 1) ;;
              call_equalsEpsilon objectType first last removeDuplicatesEpsilon) ;;
      if b then array_slice_from values 1
      else ret values
    else
      cleanedvalues <- array_slice values 0 i ;;
      vars <- cleanLoop (S length) values objectType cleanedvalues
                length i v0 v1 ;;
      let '(i, v0, v1) := vars in
      b <- andM (ret wrapAround)
             (andM (n <- array_length cleanedvalues ;; ret (1 <? n))
                (first <- array_get cleanedvalues 0 ;;
                 n <- array_length cleanedvalues ;;
                 last <- array_get cleanedvalues (n - 1) ;;
                 call_equalsEpsilon objectType first last
                   removeDuplicatesEpsilon)) ;;
      _ <- (if b then _ <- array_shift cleanedvalues ;; ret tt else ret tt) ;;
      ret cleanedvalues
  end
  end.

End Filter.

(** ** A value type: three-component Cartesian points

    Modelled from the spec: [Cartesian3] is not part of the sources at
    hand.  The specification asks of a value type an [equalsEpsilon] that
    holds when the two values differ by no more than the tolerance, and a
    [clone] that makes an independent copy; coordinates are rationals.
    [Undefined] is what an array read out of range yields: the comparison
    takes two of them as equal and tells one from every point. *)
Module Cartesian3.

Inductive Value : Type :=
  | Undefined
  | Cartesian (x y z : Q).

#[global] Instance Value_inhabited : Inhabited Value := populate Undefined.

Definition within (a b epsilon : Q) : bool :=
  Qle_bool (Qabs (a - b)%Q) epsilon.

Definition equalsEpsilon (left right : Value) (epsilon : Q) : bool :=
  match left, right with
  | Undefined, Undefined => true
  | Cartesian x1 y1 z1, Cartesian x2 y2 z2 =>
      within x1 x2 epsilon && within y1 y2 epsilon && within z1 z2 epsilon
  | _, _ => false
  end.

Definition clone (value : Value) : Value :=
  match value with
  | Undefined => Undefined
  | Cartesian x y z => Cartesian x y z
  end.

Definition objectType : ObjectType Value :=
  Build_ObjectType Value equalsEpsilon clone.

(** [new Cartesian3(x, y, z)] with integer coordinates. *)
Definition point (x y z : Z) : Value :=
  Cartesian (inject_Z x) (inject_Z y) (inject_Z z).

End Cartesian3.


(** ** The loops on lists

    What the two loops compute, as functions on the contents of [values].
    The run lemmas below show that the loops of the code compute exactly
    these. *)
Section Lists.
Context {V : Type} `{!Inhabited V}.
Variable objectType : ObjectType V.

(** [objectType.equalsEpsilon(a, b, removeDuplicatesEpsilon)] *)
Definition equalWithinEpsilon (a b : V) : bool :=
  equalsEpsilon objectType a b removeDuplicatesEpsilon.

(** The value of [i] when the first loop is left, entered at index [i]
    with [prev = values[i - 1]] and [rest] the elements from [i] on. *)
Fixpoint firstDuplicate (prev : V) (rest : list V) (i : nat) : nat :=
  match rest with
  | [] => i
  | v :: rest =>
      if equalWithinEpsilon prev v then i else firstDuplicate v rest (S i)
  end.

(** What the second loop pushes, entered with [v0] and [rest] the
    elements still to visit. *)
Fixpoint kept (v0 : V) (rest : list V) : list V :=
  match rest with
  | [] => []
  | v1 :: rest =>
      if equalWithinEpsilon v0 v1 then kept v0 rest
      else clone objectType v1 :: kept v1 rest
  end.

(** [a[0]] and [a[a.length - 1]] *)
Definition firstOf (l : list V) : V := default undefined (l !! 0).
Definition lastOf (l : list V) : V := default undefined (l !! (length l - 1)).

(** [cleanedvalues] after the second loop, entered at index [i]. *)
Definition cleaned (l : list V) (i : nat) : list V :=
  take i l ++ kept (default undefined (l !! (i - 1))) (drop i l).

(** The wrap-around step on [cleanedvalues]. *)
Definition wrapped (wrapAround : bool) (c : list V) : list V :=
  if wrapAround && (1 <? length c) && equalWithinEpsilon (firstOf c) (lastOf c)
  then tail c else c.

(** The contents of the array the function allocates, or [None] where it
    returns [values] itself. *)
Definition filtered (wrapAround : bool) (l : list V) : option (list V) :=
  match l with
  | [] => None
  | a :: r =>
      if length l <? 2 then None
      else
        let i := firstDuplicate a r 1 in
        if i =? length l then
          if wrapAround && equalWithinEpsilon (firstOf l) (lastOf l)
          then Some (drop 1 l) else None
        else Some (wrapped wrapAround (cleaned l i))
  end.

(** No element compares equal, within epsilon, to the one after it. *)
Definition NoAdjacentDuplicates (l : list V) : Prop :=
  ∀ i a b, l !! i = Some a → l !! S i = Some b →
           equalWithinEpsilon a b = false.

(** The same, decided from a first element on. *)
Fixpoint cleanFrom (prev : V) (rest : list V) : bool :=
  match rest with
  | [] => true
  | v :: rest => negb (equalWithinEpsilon prev v) && cleanFrom v rest
  end.

(** [cleanedvalues] after the element [prev]: elements are taken over as
    they are up to the first duplicate, and cloned by the second loop
    from there on. *)
Fixpoint survivors (prev : V) (rest : list V) : list V :=
  match rest with
  | [] => []
  | v :: rest =>
      if equalWithinEpsilon prev v then kept prev rest
      else v :: survivors v rest
  end.

(** [equalsEpsilon], at the tolerance the function uses, does not tell a
    clone from the value it was cloned from. *)
Definition cloneRespected : Prop :=
  ∀ a b,
    equalWithinEpsilon (clone objectType a) b = equalWithinEpsilon a b ∧
    equalWithinEpsilon a (clone objectType b) = equalWithinEpsilon a b.

Definition equalsEpsilonSymmetric : Prop :=
  ∀ a b, equalWithinEpsilon a b = true → equalWithinEpsilon b a = true.

Definition equalsEpsilonTransitive : Prop :=
  ∀ a b x, equalWithinEpsilon a b = true → equalWithinEpsilon b x = true →
           equalWithinEpsilon a x = true.

End Lists.

(** ** What a call returns *)
Section Outcomes.
Context {V : Type} `{!Inhabited V}.
Implicit Types (st : State V) (l out : list V) (values : loc)
  (objectType : ObjectType V) (wrapAround : option bool).

(** The call returns [values] itself, and no array of the store has
    changed or been added. *)
Definition returnsSame st values objectType wrapAround : Prop :=
  ∃ st', arrayRemoveDuplicates (Some values) (Some objectType) wrapAround st
           = (Normal values, st') ∧
         heap st' = heap st.

(** The call returns a reference that was not allocated before the call,
    to an array holding [out]; the arrays that were there are as they
    were. *)
Definition returnsNew st values objectType wrapAround out : Prop :=
  ∃ r st', arrayRemoveDuplicates (Some values) (Some objectType) wrapAround st
             = (Normal r, st') ∧
           heap st !! r = None ∧
           heap st' = heap st ++ [out] ∧
           heap st' !! r = Some out.

(** The call returns an array that holds [out]. *)
Definition outputs st values objectType wrapAround out : Prop :=
  ∃ r st', arrayRemoveDuplicates (Some values) (Some objectType) wrapAround st
             = (Normal r, st') ∧
           heap st' !! r = Some out.

End Outcomes.

(** ** Concrete value types and arrays *)

(** A value type compared exactly: integers, with a comparison that takes
    no tolerance and a [clone] that returns its argument. *)
Module Exact.

Inductive Value : Type :=
  | Undefined
  | Number (n : Z).

#[global] Instance Value_inhabited : Inhabited Value := populate Undefined.

Definition equalsEpsilon (left right : Value) (epsilon : Q) : bool :=
  match left, right with
  | Undefined, Undefined => true
  | Number m, Number n => (m =? n)%Z
  | _, _ => false
  end.

Definition clone (value : Value) : Value := value.

Definition objectType : ObjectType Value :=
  Build_ObjectType Value equalsEpsilon clone.

End Exact.

(** A store that holds one array, at reference 0, and an empty trace. *)
Definition store {V} (l : list V) : State V := {| heap := [l]; trace := [] |}.

Module Examples.
Import Cartesian3.

(** The array of the two examples in the function's documentation. *)
Definition documented : list Value :=
  [point 1 1 1; point 1 1 1; point 2 2 2; point 3 3 3; point 1 1 1].

(** Four points on the x axis, at 0, 1.2e-10, 5 and 0.5e-10. *)
Definition nearlyClosed : list Value :=
  [Cartesian 0 0 0; Cartesian (12 # 100000000000) 0 0;
   Cartesian 5 0 0; Cartesian (5 # 100000000000) 0 0]%Q.

(** A run of two at the head, and its value again at the end. *)
Definition leadingRun : list Value :=
  [point 1 1 1; point 1 1 1; point 2 2 2; point 1 1 1].

(** Four points on the x axis, at 0, 0.8e-10, -0.3e-10 and -0.3e-10: the
    last two are a run, the second is further than the tolerance from
    them, the first is not. *)
Definition shadowedRun : list Value :=
  [Cartesian 0 0 0; Cartesian (8 # 100000000000) 0 0;
   Cartesian (-3 # 100000000000) 0 0; Cartesian (-3 # 100000000000) 0 0]%Q.

(** Arrays without and with adjacent duplicates. *)
Definition distinct : list Value :=
  [point 1 0 0; point 2 0 0; point 3 0 0].

Definition closedRing : list Value :=
  [point 1 0 0; point 2 0 0; point 3 0 0; point 1 0 0].

Definition innerRun : list Value :=
  [point 1 0 0; point 2 0 0; point 2 0 0; point 3 0 0].

Definition numbers : list Exact.Value :=
  [Exact.Number 1; Exact.Number 1; Exact.Number 2; Exact.Number 1].

End Examples.

(** ** The calls a run makes

    The calls on [objectType] that the two loops and the wrap-around step
    make, in order, as functions on the contents of [values]. *)

Definition isEqualsEpsilonCall {V} (e : Event V) : bool :=
  match e with EqualsEpsilonCall _ _ _ => true | CloneCall _ => false end.

Definition isCloneCall {V} (e : Event V) : bool :=
  match e with EqualsEpsilonCall _ _ _ => false | CloneCall _ => true end.

(** The number of [equalsEpsilon] calls in a trace. *)
Definition comparisons {V} (tr : list (Event V)) : nat :=
  length (List.filter isEqualsEpsilonCall tr).

(** The values [clone] was called on, in order. *)
Fixpoint cloned {V} (tr : list (Event V)) : list V :=
  match tr with
  | [] => []
  | CloneCall v :: tr => v :: cloned tr
  | EqualsEpsilonCall _ _ _ :: tr => cloned tr
  end.

(** Every [equalsEpsilon] call of the trace was made at tolerance [eps]. *)
Definition comparedAt {V} (eps : Q) (tr : list (Event V)) : Prop :=
  ∀ a b e, EqualsEpsilonCall a b e ∈ tr → e = eps.

Section Calls.
Context {V : Type} `{!Inhabited V}.
Variable objectType : ObjectType V.

(** [objectType.equalsEpsilon(a, b, removeDuplicatesEpsilon)], as an event. *)
Definition compareCall (a b : V) : Event V :=
  EqualsEpsilonCall a b removeDuplicatesEpsilon.

(** The calls of the first loop, entered with [prev = values[i - 1]]. *)
Fixpoint scanCalls (prev : V) (rest : list V) : list (Event V) :=
  match rest with
  | [] => []
  | v :: rest =>
      compareCall prev v ::
      (if equalWithinEpsilon objectType prev v then [] else scanCalls v rest)
  end.

(** The calls of the second loop, entered with [v0]. *)
Fixpoint cleanCalls (v0 : V) (rest : list V) : list (Event V) :=
  match rest with
  | [] => []
  | v1 :: rest =>
      compareCall v0 v1 ::
      (if equalWithinEpsilon objectType v0 v1 then cleanCalls v0 rest
       else CloneCall v1 :: cleanCalls v1 rest)
  end.

(** The elements the second loop clones, entered with [v0]. *)
Fixpoint retained (v0 : V) (rest : list V) : list V :=
  match rest with
  | [] => []
  | v1 :: rest =>
      if equalWithinEpsilon objectType v0 v1 then retained v0 rest
      else v1 :: retained v1 rest
  end.

(** The calls of a whole run. *)
Definition calls (wrapAround : bool) (l : list V) : list (Event V) :=
  match l with
  | [] => []
  | a :: r =>
      if length l <? 2 then []
      else
        let i := firstDuplicate objectType a r 1 in
        if i =? length l then
          scanCalls a r ++
          (if wrapAround then [compareCall (firstOf l) (lastOf l)] else [])
        else
          let c := cleaned objectType l i in
          scanCalls a r ++
          cleanCalls (default undefined (l !! (i - 1))) (drop i l) ++
          (if wrapAround && (1 <? length c)
           then [compareCall (firstOf c) (lastOf c)] else [])
  end.

End Calls.

(** ** Runs of the primitive operations *)

Lemma run_trace_eq {V A} (r : Completion A) (h : list (list V))
    (t t' : list (Event V)) :
  t = t' → (r, {| heap := h; trace := t |}) = (r, {| heap := h; trace := t' |}).
Proof. by intros ->. Qed.

(** Closes a goal that two runs differ only in how the trace is bracketed,
    the remainder of the trace being still to choose. *)
Ltac trace_tail :=
  apply run_trace_eq; rewrite <- ?app_assoc; reflexivity.

Section Runs.
Context {V : Type} `{!Inhabited V}.
Implicit Types (st : State V) (l : list V) (a values : loc).

Lemma state_eta st : {| heap := heap st; trace := trace st |} = st.
Proof. by destruct st. Qed.

Lemma array_length_run st a l :
  heap st !! a = Some l → array_length a st = (Normal (length l), st).
Proof. intros Ha. unfold array_length. by rewrite Ha. Qed.

Lemma array_get_run st a l i :
  heap st !! a = Some l →
  array_get a i st = (Normal (default undefined (l !! i)), st).
Proof. intros Ha. unfold array_get. by rewrite Ha. Qed.

Lemma array_push_run st a l v :
  heap st !! a = Some l →
  array_push a v st =
    (Normal (S (length l)),
     {| heap := <[a := l ++ [v]]> (heap st); trace := trace st |}).
Proof. intros Ha. unfold array_push. by rewrite Ha. Qed.

Lemma array_shift_run st a l :
  heap st !! a = Some l →
  array_shift a st =
    (Normal (default undefined (head l)),
     {| heap := <[a := tail l]> (heap st); trace := trace st |}).
Proof. intros Ha. unfold array_shift. by rewrite Ha. Qed.

Lemma array_slice_run st a l b e :
  heap st !! a = Some l →
  array_slice a b e st =
    (Normal (length (heap st)),
     {| heap := heap st ++ [take (e - b) (drop b l)]; trace := trace st |}).
Proof. intros Ha. unfold array_slice, array_alloc. by rewrite Ha. Qed.

Lemma array_slice_from_run st a l b :
  heap st !! a = Some l →
  array_slice_from a b st =
    (Normal (length (heap st)),
     {| heap := heap st ++ [drop b l]; trace := trace st |}).
Proof. intros Ha. unfold array_slice_from, array_alloc. by rewrite Ha. Qed.

(** *** The first loop *)
Lemma scanLoop_run (objectType : ObjectType V) values rest :
  ∀ pre prev fuel st n i v0 v1,
    heap st !! values = Some (pre ++ prev :: rest) →
    n = length (pre ++ prev :: rest) →
    i = S (length pre) →
    length rest < fuel →
    ∃ tr v0' v1',
      scanLoop fuel values objectType n i v0 v1 st =
        (Normal (firstDuplicate objectType prev rest i, v0', v1'),
         {| heap := heap st; trace := trace st ++ tr |}) ∧
      (firstDuplicate objectType prev rest i < n →
       v0' = default undefined
               ((pre ++ prev :: rest) !! (firstDuplicate objectType prev rest i - 1))).
Proof.
  induction rest as [|v rest IH]; intros pre prev fuel st n i v0 v1 Hv -> -> Hfuel;
    (destruct fuel as [|fuel]; [simpl in Hfuel; lia|]); simpl.
  - rewrite length_app. simpl.
    replace (S (length pre) <? length pre + 1) with false
      by (symmetry; apply Nat.ltb_ge; lia).
    exists [], v0, v1. unfold ret. rewrite app_nil_r, state_eta.
    split; [done|]. lia.
  - rewrite length_app. simpl.
    replace (S (length pre) <? length pre + S (S (length rest))) with true
      by (symmetry; apply Nat.ltb_lt; lia).
    unfold bind at 1. rewrite (array_get_run _ _ _ _ Hv).
    unfold bind at 1. rewrite (array_get_run _ _ _ _ Hv).
    rewrite Nat.sub_0_r, list_lookup_middle by done.
    replace ((pre ++ prev :: v :: rest) !! S (length pre)) with (Some v).
    2:{ rewrite (lookup_app_r pre) by lia.
        by replace (S (length pre) - length pre) with 1 by lia. }
    simpl. unfold bind at 1, call_equalsEpsilon at 1.
    fold (equalWithinEpsilon objectType prev v).
    destruct (equalWithinEpsilon objectType prev v) eqn:Heq.
    + eexists _, prev, v. split; [done|]. intros _. simpl.
      by rewrite Nat.sub_0_r, list_lookup_middle.
    + set (st1 := {| heap := heap st; trace := _ |}).
      destruct (IH (pre ++ [prev]) v fuel st1
                  (length pre + S (S (length rest))) (S (length pre) + 1) prev v)
        as (tr & v0' & v1' & Hrun & Hv0).
      * simpl. by rewrite <- app_assoc.
      * rewrite <- app_assoc. simpl. by rewrite length_app.
      * rewrite length_app. simpl. lia.
      * simpl in Hfuel. lia.
      * replace (S (length pre) + 1) with (S (S (length pre))) in * by lia.
        replace (S (length pre + 1)) with (S (S (length pre))) by lia.
        exists (EqualsEpsilonCall prev v removeDuplicatesEpsilon :: tr), v0', v1'.
        rewrite Hrun. subst st1. simpl. rewrite <- app_assoc. simpl.
        split; [done|]. intros Hlt. rewrite Hv0 by done.
        by rewrite <- app_assoc.
Qed.

(** *** The second loop *)
Lemma cleanLoop_run (objectType : ObjectType V) values cleanedvalues rest :
  ∀ pre fuel st acc n i v0 v1,
    heap st !! values = Some (pre ++ rest) →
    heap st !! cleanedvalues = Some acc →
    values ≠ cleanedvalues →
    n = length (pre ++ rest) →
    i = length pre →
    length rest < fuel →
    ∃ tr vars,
      cleanLoop fuel values objectType cleanedvalues n i v0 v1 st =
        (Normal vars,
         {| heap := <[cleanedvalues := acc ++ kept objectType v0 rest]> (heap st);
            trace := trace st ++ tr |}).
Proof.
  induction rest as [|v rest IH];
    intros pre fuel st acc n i v0 v1 Hv Hc Hne -> -> Hfuel;
    (destruct fuel as [|fuel]; [simpl in Hfuel; lia|]); simpl.
  - rewrite !app_nil_r, Nat.ltb_irrefl.
    exists [], (length pre, v0, v1). unfold ret.
    by rewrite app_nil_r, list_insert_id, state_eta.
  - rewrite length_app. simpl.
    replace (length pre <? length pre + S (length rest)) with true
      by (symmetry; apply Nat.ltb_lt; lia).
    unfold bind at 1. rewrite (array_get_run _ _ _ _ Hv).
    rewrite list_lookup_middle by done. simpl.
    unfold bind at 1, call_equalsEpsilon at 1.
    fold (equalWithinEpsilon objectType v0 v).
    set (st1 := {| heap := heap st; trace := _ |}).
    destruct (equalWithinEpsilon objectType v0 v) eqn:Heq; simpl.
    + destruct (IH (pre ++ [v]) fuel st1 acc
                  (length pre + S (length rest)) (length pre + 1) v0 v)
        as (tr & vars & Hrun).
      * simpl. by rewrite <- app_assoc.
      * done.
      * done.
      * rewrite <- app_assoc. simpl. by rewrite length_app.
      * by rewrite length_app.
      * simpl in Hfuel. lia.
      * exists (EqualsEpsilonCall v0 v removeDuplicatesEpsilon :: tr), vars.
        rewrite Hrun. subst st1. simpl. by rewrite <- app_assoc.
    + unfold bind at 1, call_clone at 1. simpl.
      unfold bind at 1.
      erewrite array_push_run by (simpl; exact Hc). simpl.
      set (st2 := {| heap := <[cleanedvalues := _]> (heap st); trace := _ |}).
      destruct (IH (pre ++ [v]) fuel st2 (acc ++ [clone objectType v])
                  (length pre + S (length rest)) (length pre + 1) v v)
        as (tr & vars & Hrun).
      * subst st2. simpl. rewrite list_lookup_insert_ne by done.
        by rewrite <- app_assoc.
      * subst st2. simpl. apply list_lookup_insert_eq.
        by eapply lookup_lt_Some.
      * done.
      * rewrite <- app_assoc. simpl. by rewrite length_app.
      * by rewrite length_app.
      * simpl in Hfuel. lia.
      * exists (EqualsEpsilonCall v0 v removeDuplicatesEpsilon
                :: CloneCall v :: tr), vars.
        rewrite Hrun. subst st2. simpl.
        rewrite list_insert_insert_eq, <- !app_assoc. by simpl.
Qed.

Lemma lookup_fresh (h : list (list V)) l : (h ++ [l]) !! length h = Some l.
Proof. by apply list_lookup_middle. Qed.

Lemma insert_fresh (h : list (list V)) l l' :
  <[length h := l']> (h ++ [l]) = h ++ [l'].
Proof.
  rewrite insert_app_r_alt by lia. by rewrite Nat.sub_diag.
Qed.

Lemma firstDuplicate_bounds (objectType : ObjectType V) rest :
  ∀ prev i, i ≤ firstDuplicate objectType prev rest i ≤ i + length rest.
Proof.
  induction rest as [|v rest IH]; intros prev i; simpl; [lia|].
  destruct (equalWithinEpsilon objectType prev v); [lia|].
  specialize (IH v (S i)). lia.
Qed.

(** *** The whole function, on a store where [values] is an array *)
Lemma arrayRemoveDuplicates_run (objectType : ObjectType V) values
    (wrapAround : option bool) st l :
  heap st !! values = Some l →
  ∃ tr,
    arrayRemoveDuplicates (Some values) (Some objectType) wrapAround st =
      match filtered objectType (defaultValue wrapAround false) l with
      | None =>
          (Normal values, {| heap := heap st; trace := trace st ++ tr |})
      | Some out =>
          (Normal (length (heap st)),
           {| heap := heap st ++ [out]; trace := trace st ++ tr |})
      end.
Proof.
  intros Hv. unfold arrayRemoveDuplicates.
  set (w := defaultValue wrapAround false).
  unfold bind at 1. rewrite (array_length_run _ _ _ Hv).
  destruct l as [|a r].
  { exists []. simpl. unfold ret. by rewrite app_nil_r, state_eta. }
  unfold filtered.
  destruct (length (a :: r) <? 2) eqn:Hlen.
  { exists []. unfold ret. by rewrite app_nil_r, state_eta. }
  apply Nat.ltb_ge in Hlen.
  destruct (scanLoop_run objectType values r [] a (S (length (a :: r))) st
              (length (a :: r)) 1 undefined undefined)
    as (tr1 & v0 & v1 & Hscan & Hv0); [done|done|done|simpl; lia|].
  unfold bind at 1. rewrite Hscan.
  pose proof (firstDuplicate_bounds objectType r a 1) as Hb.
  set (i := firstDuplicate objectType a r 1) in *.
  set (st1 := {| heap := heap st; trace := trace st ++ tr1 |}).
  assert (Hv1 : heap st1 !! values = Some (a :: r)) by done.
  destruct (i =? length (a :: r)) eqn:Hi.
  - (* no adjacent duplicate *)
    unfold andM, bind at 1, ret at 1.
    destruct w; simpl.
    + unfold bind at 1, bind at 1. rewrite (array_get_run _ _ _ _ Hv1).
      unfold bind at 1. rewrite (array_length_run _ _ _ Hv1).
      unfold bind at 1. rewrite (array_get_run _ _ _ _ Hv1).
      unfold call_equalsEpsilon at 1.
      fold (firstOf (a :: r)) (lastOf (a :: r)).
      fold (equalWithinEpsilon objectType (firstOf (a :: r)) (lastOf (a :: r))).
      destruct (equalWithinEpsilon objectType _ _).
      * erewrite array_slice_from_run by (simpl; exact Hv).
        eexists. simpl. trace_tail.
      * eexists. unfold ret. simpl. trace_tail.
    + exists tr1. done.
  - (* a duplicate at index [i] *)
    apply Nat.eqb_neq in Hi. simpl in Hb.
    assert (Hlt : i < length (a :: r)) by (simpl in *; lia).
    unfold bind at 1. rewrite (array_slice_run _ _ _ _ _ Hv1).
    rewrite Nat.sub_0_r, drop_0. simpl heap. simpl trace.
    set (c := length (heap st)).
    set (st2 := {| heap := heap st ++ [take i (a :: r)]; trace := _ |}).
    assert (Hvc : values < c) by (by eapply lookup_lt_Some).
    destruct (cleanLoop_run objectType values c (drop i (a :: r))
                (take i (a :: r)) (S (length (a :: r))) st2
                (take i (a :: r)) (length (a :: r)) i v0 v1)
      as (tr2 & vars & Hclean).
    { subst st2. simpl heap. rewrite take_drop.
      rewrite lookup_app_l by done. done. }
    { subst st2 c. simpl heap. apply lookup_fresh. }
    { lia. }
    { by rewrite take_drop. }
    { rewrite length_take. lia. }
    { rewrite length_drop. lia. }
    unfold bind at 1. rewrite Hclean. destruct vars as [[i' v0'] v1'].
    change ([] ++ a :: r) with (a :: r) in Hv0.
    rewrite Hv0 by done. fold (cleaned objectType (a :: r) i).
    subst st2. simpl heap. simpl trace. subst c. rewrite insert_fresh.
    set (cl := cleaned objectType (a :: r) i).
    set (st3 := {| heap := heap st ++ [cl]; trace := _ |}).
    assert (Hc3 : heap st3 !! length (heap st) = Some cl)
      by apply lookup_fresh.
    unfold wrapped. fold cl.
    unfold andM at 1, bind at 1, ret at 1.
    destruct w; simpl.
    + unfold andM at 1. unfold bind at 1, bind at 1, bind at 1.
      rewrite (array_length_run _ _ _ Hc3). unfold ret at 1.
      destruct (1 <? length cl); simpl.
      * unfold bind at 1. rewrite (array_get_run _ _ _ _ Hc3).
        unfold bind at 1. rewrite (array_length_run _ _ _ Hc3).
        unfold bind at 1. rewrite (array_get_run _ _ _ _ Hc3).
        unfold call_equalsEpsilon at 1.
        fold (firstOf cl) (lastOf cl).
        fold (equalWithinEpsilon objectType (firstOf cl) (lastOf cl)).
        destruct (equalWithinEpsilon objectType _ _).
        -- unfold bind at 1, bind at 1.
           erewrite array_shift_run by (simpl; exact Hc3).
           unfold ret. simpl. rewrite insert_fresh.
           eexists. trace_tail.
        -- unfold bind, ret. simpl. eexists. trace_tail.
      * unfold bind, ret. simpl. eexists. trace_tail.
    + unfold bind, ret. simpl. eexists. trace_tail.
Qed.

End Runs.

(** ** Facts about the loops on lists *)
Section ListFacts.
Context {V : Type} `{!Inhabited V}.
Variable objectType : ObjectType V.
Implicit Types (l rest pre post : list V) (prev a x : V).

Abbreviation eqE := (equalWithinEpsilon objectType).

Lemma cleanFrom_spec rest : ∀ prev,
  cleanFrom objectType prev rest = true ↔ NoAdjacentDuplicates objectType (prev :: rest).
Proof.
  induction rest as [|v rest IH]; intros prev; simpl.
  - split; [|done]. intros _ i a b Ha Hb. by destruct i.
  - rewrite andb_true_iff, negb_true_iff, IH. split.
    + intros [Hpv Hrest] [|i] a b Ha Hb; simpl in *.
      * by simplify_eq.
      * by eapply Hrest.
    + intros Hall. split.
      * by apply (Hall 0).
      * intros i a b Ha Hb. by apply (Hall (S i)).
Qed.

Lemma NoAdjacentDuplicates_nil : NoAdjacentDuplicates objectType [].
Proof. intros i a b Ha. by rewrite lookup_nil in Ha. Qed.

Lemma NoAdjacentDuplicates_tail l :
  NoAdjacentDuplicates objectType l → NoAdjacentDuplicates objectType (tail l).
Proof.
  intros Hl i a b Ha Hb. rewrite lookup_tail in Ha, Hb. by eapply Hl.
Qed.

Lemma NoAdjacentDuplicates_cons prev rest :
  NoAdjacentDuplicates objectType (prev :: rest) ↔
  cleanFrom objectType prev rest = true.
Proof. symmetry. apply cleanFrom_spec. Qed.

Lemma firstDuplicate_clean rest : ∀ prev i,
  firstDuplicate objectType prev rest i = i + length rest ↔
  cleanFrom objectType prev rest = true.
Proof.
  induction rest as [|v rest IH]; intros prev i; simpl.
  - split; [done|lia].
  - destruct (eqE prev v); simpl.
    + split; [lia|done].
    + rewrite <- (IH v (S i)). split; lia.
Qed.

Lemma cleaned_survivors rest : ∀ pre prev,
  cleaned objectType (pre ++ prev :: rest)
    (firstDuplicate objectType prev rest (S (length pre))) =
  pre ++ prev :: survivors objectType prev rest.
Proof.
  induction rest as [|v rest IH]; intros pre prev; simpl.
  - unfold cleaned.
    rewrite take_ge, drop_ge by (rewrite length_app; simpl; lia).
    simpl. by rewrite app_nil_r.
  - destruct (eqE prev v) eqn:Heq.
    + unfold cleaned.
      replace (S (length pre) - 1) with (length pre) by lia.
      rewrite list_lookup_middle by done. simpl.
      rewrite (cons_middle prev pre (v :: rest)), app_assoc.
      replace (S (length pre)) with (length (pre ++ [prev]))
        by (rewrite length_app; simpl; lia).
      rewrite take_app_length, drop_app_length. simpl. rewrite Heq.
      by rewrite <- app_assoc.
    + specialize (IH (pre ++ [prev]) v).
      rewrite length_app in IH. simpl in IH.
      replace (length pre + 1) with (S (length pre)) in IH by lia.
      rewrite <- app_assoc in IH. simpl in IH. rewrite IH.
      by rewrite <- app_assoc.
Qed.

(** [filtered], read off the list structure. *)
Lemma filtered_cons wrapAround a r :
  filtered objectType wrapAround (a :: r) =
    if length (a :: r) <? 2 then None
    else if cleanFrom objectType a r then
      if wrapAround && eqE (firstOf (a :: r)) (lastOf (a :: r))
      then Some r else None
    else Some (wrapped objectType wrapAround (a :: survivors objectType a r)).
Proof.
  unfold filtered. destruct (length (a :: r) <? 2); [done|].
  pose proof (firstDuplicate_clean r a 1) as Hc.
  pose proof (cleaned_survivors r [] a) as Hs. simpl in Hs.
  destruct (cleanFrom objectType a r).
  - replace (firstDuplicate objectType a r 1 =? length (a :: r)) with true.
    + done.
    + symmetry. apply Nat.eqb_eq. simpl. by apply Hc.
  - replace (firstDuplicate objectType a r 1 =? length (a :: r)) with false.
    + by rewrite Hs.
    + symmetry. apply Nat.eqb_neq. simpl. intros Hfd.
      by destruct Hc as [Hc _]; specialize (Hc Hfd).
Qed.

Lemma kept_length rest : ∀ v0 : V, length (kept objectType v0 rest) ≤ length rest.
Proof.
  induction rest as [|v rest IH]; intros v0; simpl; [lia|].
  destruct (eqE v0 v); simpl; [specialize (IH v0)|specialize (IH v)]; lia.
Qed.

Lemma survivors_length rest : ∀ prev,
  length (survivors objectType prev rest) ≤ length rest.
Proof.
  induction rest as [|v rest IH]; intros prev; simpl; [lia|].
  destruct (eqE prev v); simpl.
  - pose proof (kept_length rest prev). lia.
  - specialize (IH v). lia.
Qed.

Lemma survivors_length_lt rest : ∀ prev,
  cleanFrom objectType prev rest = false →
  length (survivors objectType prev rest) < length rest.
Proof.
  induction rest as [|v rest IH]; intros prev; simpl; [done|].
  destruct (eqE prev v); simpl.
  - intros _. pose proof (kept_length rest prev). lia.
  - intros Hc. specialize (IH v Hc). lia.
Qed.

Lemma survivors_clean_id rest : ∀ prev,
  cleanFrom objectType prev rest = true → survivors objectType prev rest = rest.
Proof.
  induction rest as [|v rest IH]; intros prev; simpl; [done|].
  destruct (eqE prev v); simpl; [done|]. intros Hc. by rewrite IH.
Qed.

End ListFacts.

(** ** What a call returns *)
Section Results.
Context {V : Type} `{!Inhabited V}.
Implicit Types (st : State V) (l out : list V) (values : loc)
  (objectType : ObjectType V) (wrapAround : option bool).

Lemma arrayRemoveDuplicates_filtered st values objectType wrapAround l :
  heap st !! values = Some l →
  match filtered objectType (defaultValue wrapAround false) l with
  | None => returnsSame st values objectType wrapAround
  | Some out => returnsNew st values objectType wrapAround out
  end.
Proof.
  intros Hv.
  destruct (arrayRemoveDuplicates_run objectType values wrapAround st l Hv)
    as [tr Hrun].
  destruct (filtered objectType (defaultValue wrapAround false) l) as [out|].
  - eexists _, _. split; [exact Hrun|]. simpl.
    split; [by apply lookup_ge_None_2|]. split; [done|]. apply lookup_fresh.
  - eexists. split; [exact Hrun|]. done.
Qed.

Lemma returnsSame_outputs st values objectType wrapAround l :
  heap st !! values = Some l →
  returnsSame st values objectType wrapAround →
  outputs st values objectType wrapAround l.
Proof.
  intros Hv (st' & Hrun & Hheap). exists values, st'.
  split; [done|]. by rewrite Hheap.
Qed.

Lemma returnsNew_outputs st values objectType wrapAround out :
  returnsNew st values objectType wrapAround out →
  outputs st values objectType wrapAround out.
Proof. intros (r & st' & Hrun & _ & _ & Hout). by exists r, st'. Qed.

Lemma outputs_filtered st values objectType wrapAround l :
  heap st !! values = Some l →
  outputs st values objectType wrapAround
    (default l (filtered objectType (defaultValue wrapAround false) l)).
Proof.
  intros Hv.
  pose proof (arrayRemoveDuplicates_filtered st values objectType wrapAround l Hv)
    as Hres.
  destruct (filtered objectType (defaultValue wrapAround false) l); simpl.
  - by apply returnsNew_outputs.
  - by apply returnsSame_outputs.
Qed.

Lemma outputs_unique st values objectType wrapAround out out' :
  outputs st values objectType wrapAround out →
  outputs st values objectType wrapAround out' →
  out = out'.
Proof.
  intros (r & st' & Hrun & Hout) (r' & st'' & Hrun' & Hout').
  rewrite Hrun in Hrun'. by simplify_eq.
Qed.

Lemma firstOf_head l a : head l = Some a → firstOf l = a.
Proof. unfold firstOf. rewrite head_lookup. by intros ->. Qed.

Lemma lastOf_last l z : last l = Some z → lastOf l = z.
Proof.
  unfold lastOf. rewrite last_lookup, Nat.sub_1_r. by intros ->.
Qed.

Lemma filtered_short objectType w l :
  length l < 2 → filtered objectType w l = None.
Proof.
  intros Hlen. destruct l as [|a r]; [done|]. rewrite filtered_cons.
  by replace (length (a :: r) <? 2) with true
    by (symmetry; by apply Nat.ltb_lt).
Qed.

Lemma filtered_clean objectType w l :
  2 ≤ length l → NoAdjacentDuplicates objectType l →
  filtered objectType w l =
    if w && equalWithinEpsilon objectType (firstOf l) (lastOf l)
    then Some (tail l) else None.
Proof.
  intros Hlen Hclean. destruct l as [|a r]; [simpl in Hlen; lia|].
  rewrite filtered_cons.
  replace (length (a :: r) <? 2) with false
    by (symmetry; by apply Nat.ltb_ge).
  apply NoAdjacentDuplicates_cons in Hclean. by rewrite Hclean.
Qed.

Lemma filtered_duplicate objectType w a r :
  cleanFrom objectType a r = false →
  filtered objectType w (a :: r) =
    Some (wrapped objectType w (a :: survivors objectType a r)).
Proof.
  intros Hdup. rewrite filtered_cons, Hdup.
  destruct r as [|b r]; [done|]. done.
Qed.

End Results.

(** ** Properties of [arrayRemoveDuplicates] *)
Section Properties.
Context {V : Type} `{!Inhabited V}.
Implicit Types (st : State V) (l out : list V) (values : loc)
  (objectType : ObjectType V) (wrapAround : option bool).

(** C6: a sequence in which no element compares equal within epsilon to
    the next one is, with [wrapAround] false (or left out), returned as it
    is: the call yields the reference it was given and allocates nothing.
    So is every sequence of length 0 or 1, whatever [wrapAround] is. *)
Theorem clean_input_returned_unchanged st values objectType wrapAround l :
  heap st !! values = Some l →
  length l < 2 ∨
    (NoAdjacentDuplicates objectType l ∧ defaultValue wrapAround false = false) →
  returnsSame st values objectType wrapAround.
Proof.
  intros Hv Hcase.
  pose proof (arrayRemoveDuplicates_filtered st values objectType wrapAround l Hv)
    as Hres.
  destruct (decide (length l < 2)) as [Hshort|Hlong].
  - by rewrite filtered_short in Hres.
  - destruct Hcase as [?|[Hclean Hw]]; [done|].
    rewrite filtered_clean, Hw in Hres by (done || lia). done.
Qed.

(** C7: for a sequence of at least two elements without adjacent
    duplicates and [wrapAround] true: when the first and the last element
    compare equal within epsilon the call returns a new array that holds
    the input without its first element; when they do not, it returns the
    input itself. *)
Theorem wrapAround_on_clean_input st values objectType l a z :
  heap st !! values = Some l →
  2 ≤ length l →
  NoAdjacentDuplicates objectType l →
  head l = Some a →
  last l = Some z →
  if equalsEpsilon objectType a z removeDuplicatesEpsilon
  then returnsNew st values objectType (Some true) (tail l)
  else returnsSame st values objectType (Some true).
Proof.
  intros Hv Hlen Hclean Ha Hz.
  pose proof (arrayRemoveDuplicates_filtered st values objectType (Some true) l Hv)
    as Hres.
  rewrite filtered_clean in Hres by done. simpl in Hres.
  rewrite (firstOf_head _ _ Ha), (lastOf_last _ _ Hz) in Hres.
  unfold equalWithinEpsilon in Hres.
  by destruct (equalsEpsilon objectType a z removeDuplicatesEpsilon).
Qed.

(** C8: the call throws exactly when [values] or [objectType] is missing.
    What it throws is a [DeveloperError], and at that point the store and
    the trace are as they were at entry: nothing has been compared, cloned
    or allocated. *)
Theorem DeveloperError_iff_argument_missing
    (values : option loc) (objectType : option (ObjectType V)) wrapAround st :
  (∀ v, values = Some v → is_Some (heap st !! v)) →
  ((∃ e st', arrayRemoveDuplicates values objectType wrapAround st = (Throw e, st'))
     ↔ values = None ∨ objectType = None) ∧
  (∀ e st',
     arrayRemoveDuplicates values objectType wrapAround st = (Throw e, st') →
     st' = st ∧
     (e = DeveloperError "values is required." ∨
      e = DeveloperError "objectType is required.")).
Proof.
  intros Hwf. destruct values as [v|]; [destruct objectType as [ot|]|].
  - destruct (Hwf v eq_refl) as [l Hv].
    destruct (arrayRemoveDuplicates_run ot v wrapAround st l Hv) as [tr Hrun].
    split; [split|].
    + intros (e & st' & Hthrow). rewrite Hrun in Hthrow.
      by destruct (filtered ot (defaultValue wrapAround false) l).
    + by intros [?|?].
    + intros e st' Hthrow. rewrite Hrun in Hthrow.
      by destruct (filtered ot (defaultValue wrapAround false) l).
  - simpl. unfold throw. split; [split|].
    + by right.
    + by eexists _, _.
    + intros e st' [= <- <-]. by split; [|right].
  - simpl. unfold throw. split; [split|].
    + by left.
    + by eexists _, _.
    + intros e st' [= <- <-]. by split; [|left].
Qed.

(** C10: the output is never longer than the input, it is non-empty when
    the input is, and it is strictly shorter than the input when some
    element of the input compares equal within epsilon to the next one. *)
Theorem output_length st values objectType wrapAround l :
  heap st !! values = Some l →
  ∃ out,
    outputs st values objectType wrapAround out ∧
    (l ≠ [] → out ≠ []) ∧
    length out ≤ length l ∧
    ((∃ i a b, l !! i = Some a ∧ l !! S i = Some b ∧
               equalsEpsilon objectType a b removeDuplicatesEpsilon = true) →
     length out < length l).
Proof.
  intros Hv. eexists. split; [by apply outputs_filtered|].
  set (w := defaultValue wrapAround false).
  destruct l as [|a r].
  { simpl. split; [done|]. split; [done|].
    intros (i & x & y & Hx & _). by rewrite lookup_nil in Hx. }
  rewrite filtered_cons.
  destruct (length (a :: r) <? 2) eqn:Hlen.
  { simpl. split; [done|]. split; [lia|].
    apply Nat.ltb_lt in Hlen. intros (i & x & y & Hx & Hy & _).
    apply lookup_lt_Some in Hy. simpl in *. lia. }
  apply Nat.ltb_ge in Hlen.
  destruct (cleanFrom objectType a r) eqn:Hclean.
  - assert (Hno : ¬ ∃ i x y, (a :: r) !! i = Some x ∧ (a :: r) !! S i = Some y ∧
                     equalsEpsilon objectType x y removeDuplicatesEpsilon = true).
    { apply cleanFrom_spec in Hclean. intros (i & x & y & Hx & Hy & Heq).
      specialize (Hclean i x y Hx Hy). unfold equalWithinEpsilon in Hclean.
      congruence. }
    destruct (w && _); simpl in *.
    + split; [by destruct r; simpl in *; [lia|]|]. split; [lia|done].
    + split; [done|]. split; [lia|done].
  - pose proof (survivors_length_lt objectType r a Hclean) as Hlt.
    unfold wrapped.
    destruct (w && (1 <? length (a :: survivors objectType a r)) && _) eqn:Hwrap.
    + apply andb_true_iff in Hwrap as [Hwrap _].
      apply andb_true_iff in Hwrap as [_ Hgt]. apply Nat.ltb_lt in Hgt.
      simpl in *. split; [by destruct (survivors objectType a r); simpl in *; [lia|]|].
      split; intros; lia.
    + simpl. split; [done|]. split; intros; lia.
Qed.

(** C4: with [wrapAround] true the call yields what it yields with
    [wrapAround] false, less its first element when that sequence has more
    than one element and its first and last compare equal within epsilon.
    Nothing else is removed, whatever the new first and last elements
    are. *)
Theorem wrapAround_removes_at_most_first st values objectType l :
  heap st !! values = Some l →
  ∃ deduplicated out,
    outputs st values objectType (Some false) deduplicated ∧
    outputs st values objectType (Some true) out ∧
    out = if (1 <? length deduplicated) &&
             equalsEpsilon objectType (firstOf deduplicated)
               (lastOf deduplicated) removeDuplicatesEpsilon
          then tail deduplicated else deduplicated.
Proof.
  intros Hv. eexists _, _.
  split; [by apply outputs_filtered|]. split; [by apply outputs_filtered|].
  simpl defaultValue. destruct l as [|a r]; [done|].
  rewrite !filtered_cons.
  destruct (length (a :: r) <? 2) eqn:Hlen; simpl default.
  { apply Nat.ltb_lt in Hlen.
    by replace (1 <? length (a :: r)) with false
      by (symmetry; apply Nat.ltb_ge; lia). }
  apply Nat.ltb_ge in Hlen.
  destruct (cleanFrom objectType a r); simpl default.
  - replace (1 <? length (a :: r)) with true
      by (symmetry; apply Nat.ltb_lt; lia).
    simpl.
    fold (equalWithinEpsilon objectType (firstOf (a :: r)) (lastOf (a :: r))).
    by destruct (equalWithinEpsilon objectType _ _).
  - unfold wrapped at 2. simpl andb. cbv iota. unfold wrapped. simpl andb.
    done.
Qed.

(** C9: on a sequence of exactly two elements the call returns the same
    reference and leaves the same store whether [wrapAround] is true or
    false.  When the two compare equal, both calls make the same two
    comparisons, one in each loop, and none for the wrap-around, the
    output having one element.  When they do not, the call with
    [wrapAround] true makes the comparison of the first loop a second
    time, on the same pair, and it fails again. *)
Theorem two_elements_wrapAround_irrelevant st values objectType a b :
  heap st !! values = Some [a; b] →
  let compare := EqualsEpsilonCall a b removeDuplicatesEpsilon in
  ∃ r h calls_true calls_false,
    arrayRemoveDuplicates (Some values) (Some objectType) (Some true) st =
      (Normal r, {| heap := h; trace := trace st ++ calls_true |}) ∧
    arrayRemoveDuplicates (Some values) (Some objectType) (Some false) st =
      (Normal r, {| heap := h; trace := trace st ++ calls_false |}) ∧
    if equalsEpsilon objectType a b removeDuplicatesEpsilon
    then h = heap st ++ [[a]] ∧ r = length (heap st) ∧
         calls_true = [compare; compare] ∧ calls_false = [compare; compare]
    else h = heap st ∧ r = values ∧
         calls_true = [compare; compare] ∧ calls_false = [compare].
Proof.
  intros Hv compare.
  assert (Hrun : ∀ w,
    arrayRemoveDuplicates (Some values) (Some objectType) (Some w) st =
      if equalsEpsilon objectType a b removeDuplicatesEpsilon
      then (Normal (length (heap st)),
            {| heap := heap st ++ [[a]];
               trace := trace st ++ [compare; compare] |})
      else (Normal values,
            {| heap := heap st;
               trace := trace st ++ (if w then [compare; compare]
                                     else [compare]) |})).
  { intros w. unfold arrayRemoveDuplicates. simpl defaultValue.
    unfold bind at 1. rewrite (array_length_run _ _ _ Hv). simpl.
    unfold bind at 1, bind at 1. rewrite (array_get_run _ _ _ _ Hv).
    unfold bind at 1. rewrite (array_get_run _ _ _ _ Hv). simpl.
    unfold bind at 1, call_equalsEpsilon at 1. simpl.
    destruct (equalsEpsilon objectType a b removeDuplicatesEpsilon) eqn:Heq.
    - unfold ret at 1. simpl.
      set (st1 := {| heap := heap st; trace := _ |}).
      assert (Hv1 : heap st1 !! values = Some [a; b]) by done.
      unfold bind at 1. rewrite (array_slice_run _ _ _ _ _ Hv1). simpl.
      set (st2 := {| heap := heap st ++ [[a]]; trace := _ |}).
      assert (Hv2 : heap st2 !! values = Some [a; b]).
      { simpl. rewrite lookup_app_l; [done|]. by eapply lookup_lt_Some. }
      assert (Hc2 : heap st2 !! length (heap st) = Some [a])
        by apply lookup_fresh.
      unfold bind at 1, bind at 1. rewrite (array_get_run _ _ _ _ Hv2). simpl.
      unfold bind at 1, call_equalsEpsilon at 1. rewrite Heq. simpl.
      unfold ret at 1.
      set (st3 := {| heap := heap st ++ [[a]]; trace := _ |}).
      assert (Hc3 : heap st3 !! length (heap st) = Some [a])
        by apply lookup_fresh.
      unfold andM, bind at 1, bind at 1, ret at 1.
      destruct w.
      + unfold bind at 1, bind at 1. rewrite (array_length_run _ _ _ Hc3).
        unfold ret. simpl. subst st3 st2 st1. simpl.
        by rewrite <- app_assoc.
      + unfold bind, ret. subst st3 st2 st1. simpl. by rewrite <- app_assoc.
    - simpl. unfold ret at 1.
      set (st1 := {| heap := heap st; trace := _ |}).
      assert (Hv1 : heap st1 !! values = Some [a; b]) by done.
      unfold andM, bind at 1, bind at 1, ret at 1.
      destruct w.
      + unfold bind at 1. rewrite (array_get_run _ _ _ _ Hv1).
        unfold bind at 1. rewrite (array_length_run _ _ _ Hv1).
        unfold bind at 1. rewrite (array_get_run _ _ _ _ Hv1). simpl.
        unfold call_equalsEpsilon. rewrite Heq. unfold ret.
        subst st1. simpl. by rewrite <- app_assoc.
      + unfold ret. by subst st1. }
  pose proof (Hrun true) as Ht. pose proof (Hrun false) as Hf.
  destruct (equalsEpsilon objectType a b removeDuplicatesEpsilon);
    eexists _, _, _, _; (split; [exact Ht|]); (split; [exact Hf|]); done.
Qed.

End Properties.

(** ** Value types whose clones and comparisons behave *)
Section Contracts.
Context {V : Type} `{!Inhabited V}.
Variable objectType : ObjectType V.
Implicit Types (l rest out c : list V) (prev a x : V).

Abbreviation eqE := (equalWithinEpsilon objectType).

Lemma kept_clean rest : ∀ (v0 u : V),
  cloneRespected objectType →
  (∀ x, eqE u x = eqE v0 x) →
  cleanFrom objectType u (kept objectType v0 rest) = true.
Proof.
  induction rest as [|v rest IH]; intros v0 u Hclone Hu; simpl; [done|].
  destruct (eqE v0 v) eqn:Heq; simpl.
  - by apply IH.
  - apply andb_true_iff. split.
    + rewrite Hu. destruct (Hclone v0 v) as [_ ->]. by rewrite Heq.
    + apply IH; [done|]. intros x. by destruct (Hclone v x) as [-> _].
Qed.

Lemma survivors_clean rest : ∀ prev,
  cloneRespected objectType →
  cleanFrom objectType prev (survivors objectType prev rest) = true.
Proof.
  induction rest as [|v rest IH]; intros prev Hclone; simpl; [done|].
  destruct (eqE prev v) eqn:Heq; simpl.
  - by apply kept_clean.
  - rewrite Heq. simpl. by apply IH.
Qed.

Lemma lastOf_cons a b l : lastOf (a :: b :: l) = lastOf (b :: l).
Proof. unfold lastOf. simpl. by rewrite Nat.sub_0_r. Qed.

Lemma wrapped_clean (w : bool) c :
  NoAdjacentDuplicates objectType c →
  NoAdjacentDuplicates objectType (wrapped objectType w c).
Proof.
  intros Hc. unfold wrapped. destruct (w && _ && _); [|done].
  by apply NoAdjacentDuplicates_tail.
Qed.

(** Past the one removal of the wrap-around step, a symmetric and
    transitive comparison finds the new ends different. *)
Lemma tail_ends_differ c :
  equalsEpsilonSymmetric objectType → equalsEpsilonTransitive objectType →
  NoAdjacentDuplicates objectType c →
  eqE (firstOf c) (lastOf c) = true →
  2 ≤ length (tail c) →
  eqE (firstOf (tail c)) (lastOf (tail c)) = false.
Proof.
  intros Hsym Htrans Hclean Hends Hlen.
  destruct c as [|c0 [|c1 [|c2 c]]]; simpl in Hlen; try lia.
  simpl tail. rewrite lastOf_cons in Hends.
  change (firstOf (c0 :: c1 :: c2 :: c)) with c0 in Hends.
  change (firstOf (c1 :: c2 :: c)) with c1.
  destruct (eqE c1 (lastOf (c1 :: c2 :: c))) eqn:Heq; [|done].
  assert (eqE c0 c1 = true) as H01.
  { eapply Htrans; [exact Hends|]. by apply Hsym. }
  by rewrite (Hclean 0 c0 c1) in H01.
Qed.

Lemma filtered_Some_clean (w : bool) l out :
  cloneRespected objectType →
  filtered objectType w l = Some out →
  NoAdjacentDuplicates objectType out.
Proof.
  intros Hclone Hf. destruct l as [|a r]; [done|].
  rewrite filtered_cons in Hf.
  destruct (length (a :: r) <? 2); [done|].
  destruct (cleanFrom objectType a r) eqn:Hclean.
  - destruct (w && _); [|done]. injection Hf as <-.
    apply cleanFrom_spec in Hclean.
    by apply NoAdjacentDuplicates_tail in Hclean.
  - injection Hf as <-. apply wrapped_clean, cleanFrom_spec.
    by apply survivors_clean.
Qed.

Lemma filtered_Some_ends l out :
  cloneRespected objectType →
  equalsEpsilonSymmetric objectType → equalsEpsilonTransitive objectType →
  filtered objectType true l = Some out →
  2 ≤ length out →
  eqE (firstOf out) (lastOf out) = false.
Proof.
  intros Hclone Hsym Htrans Hf Hlen. destruct l as [|a r]; [done|].
  rewrite filtered_cons in Hf.
  destruct (length (a :: r) <? 2); [done|].
  destruct (cleanFrom objectType a r) eqn:Hclean.
  - simpl andb in Hf.
    destruct (eqE (firstOf (a :: r)) (lastOf (a :: r))) eqn:Hends; [|done].
    injection Hf as <-. apply cleanFrom_spec in Hclean.
    by apply (tail_ends_differ (a :: r)).
  - injection Hf as <-.
    set (c := a :: survivors objectType a r) in *.
    assert (Hc : NoAdjacentDuplicates objectType c)
      by (by apply cleanFrom_spec, survivors_clean).
    unfold wrapped in *. rewrite andb_true_l in *.
    destruct (1 <? length c) eqn:Hgt; rewrite ?andb_true_l, ?andb_false_l in *.
    + destruct (eqE (firstOf c) (lastOf c)) eqn:Hends; [|exact Hends].
      by apply tail_ends_differ.
    + apply Nat.ltb_ge in Hgt. cbv iota in Hlen. lia.
Qed.

Lemma filtered_None (w : bool) l :
  length l < 2 ∨
    (NoAdjacentDuplicates objectType l ∧
     (w = false ∨ eqE (firstOf l) (lastOf l) = false)) →
  filtered objectType w l = None.
Proof.
  intros Hcase. destruct (decide (length l < 2)) as [Hshort|Hlong].
  - by apply filtered_short.
  - destruct Hcase as [?|[Hclean Hw]]; [done|].
    rewrite filtered_clean by (done || lia).
    by destruct Hw as [->| ->]; [|rewrite andb_false_r].
Qed.

Lemma filtered_None_inv (w : bool) l :
  filtered objectType w l = None →
  length l < 2 ∨
    (NoAdjacentDuplicates objectType l ∧
     (w = false ∨ eqE (firstOf l) (lastOf l) = false)).
Proof.
  intros Hf. destruct l as [|a r]; [left; simpl; lia|].
  rewrite filtered_cons in Hf.
  destruct (length (a :: r) <? 2) eqn:Hlen; [left; by apply Nat.ltb_lt|].
  destruct (cleanFrom objectType a r) eqn:Hclean; [|done].
  right. split; [by apply cleanFrom_spec|].
  destruct w; [right|by left].
  by destruct (eqE (firstOf (a :: r)) (lastOf (a :: r))).
Qed.

(** The output with [wrapAround] true, from the one with [wrapAround]
    false. *)
Lemma output_with_wrapAround l :
  default l (filtered objectType true l) =
    if (1 <? length (default l (filtered objectType false l))) &&
       eqE (firstOf (default l (filtered objectType false l)))
         (lastOf (default l (filtered objectType false l)))
    then tail (default l (filtered objectType false l))
    else default l (filtered objectType false l).
Proof.
  destruct l as [|a r]; [done|]. rewrite !filtered_cons.
  destruct (length (a :: r) <? 2) eqn:Hlen; simpl default.
  { apply Nat.ltb_lt in Hlen.
    by replace (1 <? length (a :: r)) with false
      by (symmetry; apply Nat.ltb_ge; lia). }
  apply Nat.ltb_ge in Hlen.
  destruct (cleanFrom objectType a r); simpl default.
  - replace (1 <? length (a :: r)) with true
      by (symmetry; apply Nat.ltb_lt; lia).
    simpl. by destruct (eqE (firstOf (a :: r)) (lastOf (a :: r))).
  - unfold wrapped at 2. simpl andb. cbv iota. unfold wrapped. simpl andb.
    done.
Qed.


End Contracts.

Section PropertiesUnderContracts.
Context {V : Type} `{!Inhabited V}.
Implicit Types (st : State V) (l out : list V) (values : loc)
  (objectType : ObjectType V) (wrapAround : option bool).


Lemma returnsSame_filtered st values objectType wrapAround l :
  heap st !! values = Some l →
  returnsSame st values objectType wrapAround →
  filtered objectType (defaultValue wrapAround false) l = None.
Proof.
  intros Hv (st' & Hrun & _).
  pose proof (arrayRemoveDuplicates_filtered st values objectType wrapAround l Hv)
    as Hres.
  destruct (filtered objectType (defaultValue wrapAround false) l) as [out|];
    [|done].
  destruct Hres as (r & st'' & Hrun' & Hfresh & _).
  rewrite Hrun in Hrun'. injection Hrun' as <- _. congruence.
Qed.


(** C3, as the code has it.  With a [clone] that [equalsEpsilon] does not
    tell from the original, applying the function to its own output with
    the same [wrapAround] returns that output as it is exactly when
    [wrapAround] is false, or the output has fewer than two elements, or
    the first and last elements of the output do not compare equal within
    epsilon.  That is so in particular whenever [equalsEpsilon] is
    symmetric and transitive. *)
Theorem idempotent st values objectType wrapAround l :
  heap st !! values = Some l →
  cloneRespected objectType →
  ∃ r st' out,
    arrayRemoveDuplicates (Some values) (Some objectType) wrapAround st
      = (Normal r, st') ∧
    heap st' !! r = Some out ∧
    (returnsSame st' r objectType wrapAround ∧
     outputs st' r objectType wrapAround out
     ↔ defaultValue wrapAround false = false ∨
       length out < 2 ∨
       equalsEpsilon objectType (firstOf out) (lastOf out)
         removeDuplicatesEpsilon = false) ∧
    (equalsEpsilonSymmetric objectType →
     equalsEpsilonTransitive objectType →
     returnsSame st' r objectType wrapAround ∧
     outputs st' r objectType wrapAround out).
Proof.
  intros Hv Hclone.
  pose proof (arrayRemoveDuplicates_filtered st values objectType wrapAround l Hv)
    as Hres.
  set (w := defaultValue wrapAround false) in *.
  assert (Hagain : ∀ st' r out,
            heap st' !! r = Some out →
            filtered objectType w out = None →
            returnsSame st' r objectType wrapAround ∧
            outputs st' r objectType wrapAround out).
  { intros st' r out Hr Hnone.
    pose proof (arrayRemoveDuplicates_filtered st' r objectType wrapAround out Hr)
      as Hres'.
    fold w in Hres'. rewrite Hnone in Hres'.
    split; [done|]. by apply returnsSame_outputs. }
  assert (Hiff : ∀ st' r out,
            heap st' !! r = Some out →
            length out < 2 ∨ NoAdjacentDuplicates objectType out →
            (returnsSame st' r objectType wrapAround ∧
             outputs st' r objectType wrapAround out
             ↔ w = false ∨ length out < 2 ∨
               equalWithinEpsilon objectType (firstOf out) (lastOf out) = false)).
  { intros st' r out Hr Hclean. split.
    - intros [Hsame _].
      pose proof (returnsSame_filtered _ _ _ _ _ Hr Hsame) as Hnone. fold w in Hnone.
      destruct (filtered_None_inv objectType w out Hnone) as [?|[_ [?|?]]]; auto.
    - intros Hcase. apply Hagain; [done|]. apply filtered_None.
      destruct Hcase as [?|[?|?]]; [|by left|].
      + destruct Hclean as [?|?]; [by left|right; split; [done|by left]].
      + destruct Hclean as [?|?]; [by left|right; split; [done|by right]]. }
  destruct (filtered objectType w l) as [out|] eqn:Hf.
  - destruct Hres as (r & st' & Hrun & _ & _ & Hout).
    pose proof (filtered_Some_clean objectType w l out Hclone Hf) as Hclean.
    exists r, st', out. split; [done|]. split; [done|].
    split; [apply Hiff; [done|by right]|].
    intros Hsym Htrans. apply Hiff; [done|by right|].
    destruct (decide (length out < 2)) as [?|Hlong]; [by right; left|].
    destruct w eqn:Hw; [right; right|by left].
    eapply filtered_Some_ends; [done..|lia].
  - destruct Hres as (st' & Hrun & Hheap).
    assert (Hl : heap st' !! values = Some l) by (by rewrite Hheap).
    destruct (filtered_None_inv objectType w l Hf) as [Hshort|[Hclean Hcase]].
    + exists values, st', l. split; [done|]. split; [done|].
      split; [apply Hiff; [done|by left]|].
      intros _ _. apply Hiff; [done|by left|]. by right; left.
    + exists values, st', l. split; [done|]. split; [done|].
      split; [apply Hiff; [done|by right]|].
      intros _ _. apply Hiff; [done|by right|].
      destruct Hcase as [?|?]; [by left|by right; right].
Qed.

End PropertiesUnderContracts.

(** ** Runs of duplicates *)
Section DuplicateRuns.
Context {V : Type} `{!Inhabited V}.
Variable objectType : ObjectType V.
Implicit Types (l rest pre post : list V) (prev a x : V).

Abbreviation eqE := (equalWithinEpsilon objectType).

Lemma kept_skip x rest post :
  Forall (λ d, eqE x d = true) rest →
  kept objectType x (rest ++ post) = kept objectType x post.
Proof.
  induction 1 as [|d rest Hd _ IH]; simpl; [done|]. by rewrite Hd.
Qed.

Lemma kept_sublist post : ∀ x,
  ∃ after, kept objectType x post = map (clone objectType) after ∧
           sublist after post.
Proof.
  induction post as [|p post IH]; intros x; simpl.
  - by exists [].
  - destruct (eqE x p).
    + destruct (IH x) as (after & -> & Hsub).
      exists after. split; [done|]. by constructor.
    + destruct (IH p) as (after & -> & Hsub).
      exists (p :: after). split; [done|]. by constructor.
Qed.

Lemma kept_app_run x rest post pre : ∀ (retained original : V),
  cloneRespected objectType →
  (∀ t, eqE retained t = eqE original t) →
  (∀ z, last (retained :: kept objectType original pre) = Some z →
        eqE z x = false) →
  Forall (λ d, eqE x d = true) rest →
  kept objectType original (pre ++ x :: rest ++ post) =
    kept objectType original pre ++ clone objectType x :: kept objectType x post.
Proof.
  induction pre as [|v pre IH]; intros retained original Hclone Hsame Hlast Hrun;
    simpl in *.
  - rewrite <- Hsame, (Hlast retained) by done. by rewrite kept_skip.
  - destruct (eqE original v) eqn:Heq.
    + by apply (IH retained).
    + simpl. f_equal. apply (IH (clone objectType v)); [done| |done..].
      intros t. by destruct (Hclone v t) as [-> _].
Qed.

Lemma survivors_app_run x rest post pre : ∀ prev,
  cloneRespected objectType →
  (∀ z, last (prev :: survivors objectType prev pre) = Some z →
        eqE z x = false) →
  rest ≠ [] →
  Forall (λ d, eqE x d = true) rest →
  ∃ y, (y = x ∨ y = clone objectType x) ∧
       survivors objectType prev (pre ++ x :: rest ++ post) =
         survivors objectType prev pre ++ y :: kept objectType x post.
Proof.
  induction pre as [|v pre IH]; intros prev Hclone Hlast Hne Hrun; simpl in *.
  - rewrite (Hlast prev) by done.
    destruct Hrun as [|d rest Hd Hrun]; [done|]. simpl. rewrite Hd.
    exists x. split; [by left|]. by rewrite kept_skip.
  - destruct (eqE prev v) eqn:Heq.
    + exists (clone objectType x). split; [by right|].
      by apply (kept_app_run x rest post pre prev prev).
    + destruct (IH v) as (y & Hy & ->); [done..|].
      by exists y.
Qed.

Lemma output_without_wrapAround a r :
  default (a :: r) (filtered objectType false (a :: r)) =
    a :: survivors objectType a r.
Proof.
  rewrite filtered_cons. destruct (length (a :: r) <? 2) eqn:Hlen.
  { destruct r; [done|]. done. }
  destruct (cleanFrom objectType a r) eqn:Hclean; simpl.
  - by rewrite survivors_clean_id.
  - done.
Qed.

(** The output for [wrapAround] false on an input with a run [x :: rest],
    [x] not comparing equal to what is retained last before it. *)
Lemma dedup_run_split pre x rest post :
  cloneRespected objectType →
  rest ≠ [] →
  Forall (λ d, eqE x d = true) rest →
  (∀ z, last (default pre (filtered objectType false pre)) = Some z →
        eqE z x = false) →
  ∃ y after,
    (y = x ∨ y = clone objectType x) ∧
    sublist after post ∧
    default (pre ++ x :: rest ++ post)
      (filtered objectType false (pre ++ x :: rest ++ post)) =
      default pre (filtered objectType false pre)
        ++ y :: map (clone objectType) after.
Proof.
  intros Hclone Hne Hrun Hlast.
  destruct (kept_sublist post x) as (after & Hkept & Hsub).
  destruct pre as [|p pre].
  - simpl app. rewrite output_without_wrapAround.
    destruct Hrun as [|d rest Hd Hrun]; [done|]. simpl. rewrite Hd.
    rewrite kept_skip, Hkept by done.
    exists x, after. split; [by left|done].
  - rewrite output_without_wrapAround in Hlast.
    change ((p :: pre) ++ x :: rest ++ post)
      with (p :: (pre ++ x :: rest ++ post)).
    rewrite !output_without_wrapAround.
    destruct (survivors_app_run x rest post pre p)
      as (y & Hy & Hsurv); [done..|].
    rewrite Hsurv, Hkept. by exists y, after.
Qed.

End DuplicateRuns.

Section RunProperty.
Context {V : Type} `{!Inhabited V}.
Implicit Types (st : State V) (l out : list V) (values : loc)
  (objectType : ObjectType V) (wrapAround : option bool).

(** C5, as the code has it.  Given a [clone] that [equalsEpsilon] does not
    tell from the original, let [x] be followed by one or more elements
    that each compare equal to [x] within epsilon, and let [x] not compare
    equal to the last element the function retains of what precedes it.
    Then one element, [x] or its clone, stands for the whole run in the
    output: it comes after what is retained of the elements before [x]
    (less the first of them, where the wrap-around step removes it) and
    before clones of some of the elements after the run, in their order.
    The one exception: with [wrapAround] true, when nothing precedes the
    run and its element compares equal to the last element retained, the
    wrap-around step removes it. *)
Theorem run_collapses_to_one_element st values st0 values0 objectType
    wrapAround pre x rest post before :
  cloneRespected objectType →
  heap st !! values = Some (pre ++ x :: rest ++ post) →
  rest ≠ [] →
  Forall (λ d, equalsEpsilon objectType x d removeDuplicatesEpsilon = true) rest →
  heap st0 !! values0 = Some pre →
  outputs st0 values0 objectType (Some false) before →
  (∀ z, last before = Some z →
        equalsEpsilon objectType z x removeDuplicatesEpsilon = false) →
  ∃ y after out,
    (y = x ∨ y = clone objectType x) ∧
    sublist after post ∧
    outputs st values objectType wrapAround out ∧
    (out = before ++ y :: map (clone objectType) after ∨
     (defaultValue wrapAround false = true ∧ before ≠ [] ∧
      out = tail before ++ y :: map (clone objectType) after) ∨
     (defaultValue wrapAround false = true ∧ before = [] ∧ after ≠ [] ∧
      equalsEpsilon objectType y
        (lastOf (y :: map (clone objectType) after))
        removeDuplicatesEpsilon = true ∧
      out = map (clone objectType) after)) ∧
    (defaultValue wrapAround false = false →
     out = before ++ y :: map (clone objectType) after).
Proof.
  intros Hclone Hv Hne Hrun Hv0 Hbefore Hlast.
  pose proof (outputs_filtered st0 values0 objectType (Some false) pre Hv0) as Hpre.
  pose proof (outputs_unique _ _ _ _ _ _ Hbefore Hpre) as ->.
  simpl defaultValue in *. clear Hpre Hbefore.
  destruct (dedup_run_split objectType pre x rest post Hclone Hne Hrun Hlast)
    as (y & after & Hy & Hsub & Hdedup).
  pose proof (outputs_filtered st values objectType wrapAround _ Hv) as Hout.
  set (before := default pre (filtered objectType false pre)) in *.
  exists y, after. eexists. split; [done|]. split; [done|].
  split; [exact Hout|].
  destruct (defaultValue wrapAround false) eqn:Hw.
  - rewrite output_with_wrapAround, Hdedup. split; [|done].
    destruct ((1 <? length (before ++ y :: map (clone objectType) after)) && _)
      eqn:Htest; [|by left].
    apply andb_true_iff in Htest as [Hlong Hends].
    apply Nat.ltb_lt in Hlong. right.
    destruct before as [|b before'].
    + right. simpl in *. split; [done|]. split; [done|].
      split; [by destruct after; [simpl in Hlong; lia|]|]. by split.
    + left. by split.
  - rewrite Hdedup. split; [by left|done].
Qed.

End RunProperty.

(** ** The function on concrete arrays *)

Lemma Cartesian3_cloneRespected : cloneRespected Cartesian3.objectType.
Proof. intros a b. by destruct a, b. Qed.

Lemma Exact_cloneRespected : cloneRespected Exact.objectType.
Proof. by intros a b. Qed.

Lemma Exact_symmetric : equalsEpsilonSymmetric Exact.objectType.
Proof.
  intros [|m] [|n]; unfold equalWithinEpsilon; simpl; try done.
  rewrite !Z.eqb_eq. lia.
Qed.

Lemma Exact_transitive : equalsEpsilonTransitive Exact.objectType.
Proof.
  intros [|m] [|n] [|k]; unfold equalWithinEpsilon; simpl; try done.
  rewrite !Z.eqb_eq. lia.
Qed.

(** C2: on the array of the documentation's second example, with
    [wrapAround] true, the call yields (2,2,2), (3,3,3), (1,1,1): the
    wrap-around step drops the leading (1,1,1) and keeps the trailing one.
    The documentation, and the specification after it, give
    (1,1,1), (2,2,2), (3,3,3). *)
Theorem documented_example_with_wrapAround :
  outputs (store Examples.documented) 0 Cartesian3.objectType (Some true)
    [Cartesian3.point 2 2 2; Cartesian3.point 3 3 3; Cartesian3.point 1 1 1] ∧
  ¬ outputs (store Examples.documented) 0 Cartesian3.objectType (Some true)
      [Cartesian3.point 1 1 1; Cartesian3.point 2 2 2; Cartesian3.point 3 3 3].
Proof.
  assert (Hout : outputs (store Examples.documented) 0 Cartesian3.objectType
                   (Some true)
                   [Cartesian3.point 2 2 2; Cartesian3.point 3 3 3;
                    Cartesian3.point 1 1 1]).
  { eexists _, _. split; vm_compute; reflexivity. }
  split; [done|]. intros Hdoc.
  by pose proof (outputs_unique _ _ _ _ _ _ Hout Hdoc).
Qed.


(** C3 fails: on [nearlyClosed] with [wrapAround] true the first call
    yields three elements, and the call on that output yields two. *)
Lemma second_application_removes_again :
  ∃ r st' out out',
    arrayRemoveDuplicates (Some 0) (Some Cartesian3.objectType) (Some true)
      (store Examples.nearlyClosed) = (Normal r, st') ∧
    heap st' !! r = Some out ∧
    outputs st' r Cartesian3.objectType (Some true) out' ∧
    length out = 3 ∧ length out' = 2.
Proof.
  eexists _, _, _, _. split; [vm_compute; reflexivity|].
  split; [reflexivity|].
  split; [eexists _, _; split; vm_compute; reflexivity|by split].
Qed.

(** C5 fails, in two ways.  [leadingRun] starts with a run of two equal
    elements, and with [wrapAround] true the output is (2,2,2), (1,1,1): it
    does not start with an element standing for that run.  [shadowedRun]
    ends with a run of two equal elements whose predecessor does not
    compare equal to them, and with [wrapAround] false the output is the
    first point alone: the run compares equal to the last value retained,
    and nothing stands for it. *)
Lemma run_without_representative :
  (outputs (store Examples.leadingRun) 0 Cartesian3.objectType (Some true)
     [Cartesian3.point 2 2 2; Cartesian3.point 1 1 1] ∧
   ¬ ∃ y after,
       outputs (store Examples.leadingRun) 0 Cartesian3.objectType (Some true)
         ([] ++ y :: map (clone Cartesian3.objectType) after) ∧
       (y = Cartesian3.point 1 1 1 ∨
        y = clone Cartesian3.objectType (Cartesian3.point 1 1 1)) ∧
       sublist after [Cartesian3.point 2 2 2; Cartesian3.point 1 1 1]) ∧
  (∃ p0 p1 x,
     Examples.shadowedRun = [p0; p1; x; x] ∧
     equalsEpsilon Cartesian3.objectType x x removeDuplicatesEpsilon = true ∧
     equalsEpsilon Cartesian3.objectType p1 x removeDuplicatesEpsilon = false ∧
     outputs (store Examples.shadowedRun) 0 Cartesian3.objectType (Some false)
       [p0] ∧
     ¬ ∃ before y after,
         outputs (store Examples.shadowedRun) 0 Cartesian3.objectType
           (Some false) (before ++ y :: after) ∧
         (y = x ∨ y = clone Cartesian3.objectType x)).
Proof.
  split.
  - assert (Hout : outputs (store Examples.leadingRun) 0 Cartesian3.objectType
                     (Some true)
                     [Cartesian3.point 2 2 2; Cartesian3.point 1 1 1]).
    { eexists _, _. split; vm_compute; reflexivity. }
    split; [done|]. intros (y & after & Hrun & Hy & _).
    pose proof (outputs_unique _ _ _ _ _ _ Hout Hrun) as Heq.
    simpl in Heq. injection Heq as <- _. by destruct Hy.
  - eexists _, _, _. split; [reflexivity|].
    split; [reflexivity|]. split; [reflexivity|].
    assert (Hout : outputs (store Examples.shadowedRun) 0 Cartesian3.objectType
                     (Some false) [Cartesian3.Cartesian 0 0 0]).
    { eexists _, _. split; vm_compute; reflexivity. }
    split; [done|]. intros (before & y & after & Hrun & Hy).
    pose proof (outputs_unique _ _ _ _ _ _ Hout Hrun) as Heq.
    destruct before as [|b [|b' before]]; simpl in Heq.
    + injection Heq as <- _. by destruct Hy.
    + done.
    + done.
Qed.

(** ** The theorems at concrete arrays *)

Lemma clean_input_returned_unchanged_witness :
  returnsSame (store Examples.distinct) 0 Cartesian3.objectType None.
Proof.
  apply (clean_input_returned_unchanged _ _ _ _ Examples.distinct).
  - reflexivity.
  - right. split; [|reflexivity].
    apply NoAdjacentDuplicates_cons. vm_compute. reflexivity.
Defined.

Lemma wrapAround_on_clean_input_witness :
  returnsNew (store Examples.closedRing) 0 Cartesian3.objectType (Some true)
    (tail Examples.closedRing).
Proof.
  apply (wrapAround_on_clean_input (store Examples.closedRing) 0
           Cartesian3.objectType Examples.closedRing
           (Cartesian3.point 1 0 0) (Cartesian3.point 1 0 0)).
  - reflexivity.
  - simpl. lia.
  - apply NoAdjacentDuplicates_cons. vm_compute. reflexivity.
  - reflexivity.
  - reflexivity.
Defined.

Lemma DeveloperError_iff_argument_missing_witness :
  ((∃ e st', arrayRemoveDuplicates (Some 0) (@None (ObjectType Cartesian3.Value))
               None (store Examples.distinct) = (Throw e, st'))
     ↔ Some 0 = None ∨ @None (ObjectType Cartesian3.Value) = None) ∧
  (∀ e st',
     arrayRemoveDuplicates (Some 0) (@None (ObjectType Cartesian3.Value))
       None (store Examples.distinct) = (Throw e, st') →
     st' = store Examples.distinct ∧
     (e = DeveloperError "values is required." ∨
      e = DeveloperError "objectType is required.")).
Proof.
  apply (DeveloperError_iff_argument_missing (Some 0) None None
           (store Examples.distinct)).
  intros v Hv. injection Hv as <-. eexists. reflexivity.
Defined.

Lemma output_length_witness :
  ∃ out,
    outputs (store Examples.innerRun) 0 Cartesian3.objectType (Some true) out ∧
    (Examples.innerRun ≠ [] → out ≠ []) ∧
    length out ≤ length Examples.innerRun ∧
    ((∃ i a b, Examples.innerRun !! i = Some a ∧
               Examples.innerRun !! S i = Some b ∧
               equalsEpsilon Cartesian3.objectType a b removeDuplicatesEpsilon
                 = true) →
     length out < length Examples.innerRun).
Proof.
  apply (output_length (store Examples.innerRun) 0 Cartesian3.objectType
           (Some true) Examples.innerRun).
  reflexivity.
Defined.

Lemma wrapAround_removes_at_most_first_witness :
  ∃ deduplicated out,
    outputs (store Examples.documented) 0 Cartesian3.objectType (Some false)
      deduplicated ∧
    outputs (store Examples.documented) 0 Cartesian3.objectType (Some true) out ∧
    out = if (1 <? length deduplicated) &&
             equalsEpsilon Cartesian3.objectType (firstOf deduplicated)
               (lastOf deduplicated) removeDuplicatesEpsilon
          then tail deduplicated else deduplicated.
Proof.
  apply (wrapAround_removes_at_most_first (store Examples.documented) 0
           Cartesian3.objectType Examples.documented).
  reflexivity.
Defined.

Lemma two_elements_wrapAround_irrelevant_witness :
  let a := Cartesian3.point 5 0 0 in
  let b := Cartesian3.point 5 0 0 in
  let st := store [a; b] in
  let compare := EqualsEpsilonCall a b removeDuplicatesEpsilon in
  ∃ r h calls_true calls_false,
    arrayRemoveDuplicates (Some 0) (Some Cartesian3.objectType) (Some true) st =
      (Normal r, {| heap := h; trace := trace st ++ calls_true |}) ∧
    arrayRemoveDuplicates (Some 0) (Some Cartesian3.objectType) (Some false) st =
      (Normal r, {| heap := h; trace := trace st ++ calls_false |}) ∧
    if equalsEpsilon Cartesian3.objectType a b removeDuplicatesEpsilon
    then h = heap st ++ [[a]] ∧ r = length (heap st) ∧
         calls_true = [compare; compare] ∧ calls_false = [compare; compare]
    else h = heap st ∧ r = 0 ∧
         calls_true = [compare; compare] ∧ calls_false = [compare].
Proof.
  intros a b st compare.
  apply (two_elements_wrapAround_irrelevant st 0 Cartesian3.objectType a b).
  reflexivity.
Defined.


Lemma idempotent_witness :
  (∃ r st' out,
     arrayRemoveDuplicates (Some 0) (Some Cartesian3.objectType) (Some true)
       (store Examples.documented) = (Normal r, st') ∧
     heap st' !! r = Some out ∧
     returnsSame st' r Cartesian3.objectType (Some true) ∧
     outputs st' r Cartesian3.objectType (Some true) out) ∧
  (∃ r st' out,
     arrayRemoveDuplicates (Some 0) (Some Exact.objectType) (Some true)
       (store Examples.numbers) = (Normal r, st') ∧
     heap st' !! r = Some out ∧
     returnsSame st' r Exact.objectType (Some true) ∧
     outputs st' r Exact.objectType (Some true) out).
Proof.
  split.
  - destruct (idempotent (store Examples.documented) 0 Cartesian3.objectType
                (Some true) Examples.documented eq_refl Cartesian3_cloneRespected)
      as (r & st' & out & Hrun & Hout & Hiff & _).
    exists r, st', out. split; [exact Hrun|]. split; [exact Hout|].
    apply Hiff. right. right.
    vm_compute in Hrun. injection Hrun as <- <-.
    vm_compute in Hout. injection Hout as <-. reflexivity.
  - destruct (idempotent (store Examples.numbers) 0 Exact.objectType
                (Some true) Examples.numbers eq_refl Exact_cloneRespected)
      as (r & st' & out & Hrun & Hout & _ & Hequivalence).
    exists r, st', out. split; [exact Hrun|]. split; [exact Hout|].
    apply Hequivalence; [exact Exact_symmetric|exact Exact_transitive].
Defined.

Lemma run_collapses_to_one_element_witness :
  ∃ y after out,
    (y = Cartesian3.point 2 0 0 ∨
     y = clone Cartesian3.objectType (Cartesian3.point 2 0 0)) ∧
    sublist after [Cartesian3.point 1 0 0] ∧
    outputs
      (store [Cartesian3.point 1 0 0; Cartesian3.point 2 0 0;
              Cartesian3.point 2 0 0; Cartesian3.point 1 0 0])
      0 Cartesian3.objectType (Some true) out ∧
    (out = [Cartesian3.point 1 0 0]
             ++ y :: map (clone Cartesian3.objectType) after ∨
     (defaultValue (Some true) false = true ∧ [Cartesian3.point 1 0 0] ≠ [] ∧
      out = tail [Cartesian3.point 1 0 0]
              ++ y :: map (clone Cartesian3.objectType) after) ∨
     (defaultValue (Some true) false = true ∧ [Cartesian3.point 1 0 0] = [] ∧
      after ≠ [] ∧
      equalsEpsilon Cartesian3.objectType y
        (lastOf (y :: map (clone Cartesian3.objectType) after))
        removeDuplicatesEpsilon = true ∧
      out = map (clone Cartesian3.objectType) after)) ∧
    (defaultValue (Some true) false = false →
     out = [Cartesian3.point 1 0 0]
             ++ y :: map (clone Cartesian3.objectType) after).
Proof.
  apply (run_collapses_to_one_element
           (store [Cartesian3.point 1 0 0; Cartesian3.point 2 0 0;
                   Cartesian3.point 2 0 0; Cartesian3.point 1 0 0]) 0
           (store [Cartesian3.point 1 0 0]) 0 Cartesian3.objectType (Some true)
           [Cartesian3.point 1 0 0] (Cartesian3.point 2 0 0)
           [Cartesian3.point 2 0 0] [Cartesian3.point 1 0 0]
           [Cartesian3.point 1 0 0]).
  - exact Cartesian3_cloneRespected.
  - reflexivity.
  - discriminate.
  - repeat constructor.
  - reflexivity.
  - eexists _, _. split; vm_compute; reflexivity.
  - intros z Hz. injection Hz as <-. reflexivity.
Defined.


(** ** The calls of a run, exactly *)
Section RunCalls.
Context {V : Type} `{!Inhabited V}.
Implicit Types (st : State V) (l : list V) (a values : loc).

Lemma scanLoop_calls (objectType : ObjectType V) values rest :
  ∀ pre prev fuel st n i v0 v1,
    heap st !! values = Some (pre ++ prev :: rest) →
    n = length (pre ++ prev :: rest) →
    i = S (length pre) →
    length rest < fuel →
    ∃ v0' v1',
      scanLoop fuel values objectType n i v0 v1 st =
        (Normal (firstDuplicate objectType prev rest i, v0', v1'),
         {| heap := heap st;
            trace := trace st ++ scanCalls objectType prev rest |}) ∧
      (firstDuplicate objectType prev rest i < n →
       v0' = default undefined
               ((pre ++ prev :: rest) !! (firstDuplicate objectType prev rest i - 1))).
Proof.
  induction rest as [|v rest IH]; intros pre prev fuel st n i v0 v1 Hv -> -> Hfuel;
    (destruct fuel as [|fuel]; [simpl in Hfuel; lia|]); simpl.
  - rewrite length_app. simpl.
    replace (S (length pre) <? length pre + 1) with false
      by (symmetry; apply Nat.ltb_ge; lia).
    exists v0, v1. unfold ret. rewrite app_nil_r, state_eta.
    split; [done|]. lia.
  - rewrite length_app. simpl.
    replace (S (length pre) <? length pre + S (S (length rest))) with true
      by (symmetry; apply Nat.ltb_lt; lia).
    unfold bind at 1. rewrite (array_get_run _ _ _ _ Hv).
    unfold bind at 1. rewrite (array_get_run _ _ _ _ Hv).
    rewrite Nat.sub_0_r, list_lookup_middle by done.
    replace ((pre ++ prev :: v :: rest) !! S (length pre)) with (Some v).
    2:{ rewrite (lookup_app_r pre) by lia.
        by replace (S (length pre) - length pre) with 1 by lia. }
    simpl. unfold bind at 1, call_equalsEpsilon at 1.
    fold (equalWithinEpsilon objectType prev v).
    fold (compareCall prev v).
    destruct (equalWithinEpsilon objectType prev v) eqn:Heq.
    + exists prev, v. split; [done|]. intros _. simpl.
      by rewrite Nat.sub_0_r, list_lookup_middle.
    + set (st1 := {| heap := heap st; trace := _ |}).
      destruct (IH (pre ++ [prev]) v fuel st1
                  (length pre + S (S (length rest))) (S (length pre) + 1) prev v)
        as (v0' & v1' & Hrun & Hv0).
      * simpl. by rewrite <- app_assoc.
      * rewrite <- app_assoc. simpl. by rewrite length_app.
      * rewrite length_app. simpl. lia.
      * simpl in Hfuel. lia.
      * replace (S (length pre) + 1) with (S (S (length pre))) in * by lia.
        replace (S (length pre + 1)) with (S (S (length pre))) by lia.
        exists v0', v1'.
        rewrite Hrun. subst st1. simpl. rewrite <- app_assoc. simpl.
        split; [done|]. intros Hlt. rewrite Hv0 by done.
        by rewrite <- app_assoc.
Qed.

Lemma cleanLoop_calls (objectType : ObjectType V) values cleanedvalues rest :
  ∀ pre fuel st acc n i v0 v1,
    heap st !! values = Some (pre ++ rest) →
    heap st !! cleanedvalues = Some acc →
    values ≠ cleanedvalues →
    n = length (pre ++ rest) →
    i = length pre →
    length rest < fuel →
    ∃ vars,
      cleanLoop fuel values objectType cleanedvalues n i v0 v1 st =
        (Normal vars,
         {| heap := <[cleanedvalues := acc ++ kept objectType v0 rest]> (heap st);
            trace := trace st ++ cleanCalls objectType v0 rest |}).
Proof.
  induction rest as [|v rest IH];
    intros pre fuel st acc n i v0 v1 Hv Hc Hne -> -> Hfuel;
    (destruct fuel as [|fuel]; [simpl in Hfuel; lia|]); simpl.
  - rewrite !app_nil_r, Nat.ltb_irrefl.
    exists (length pre, v0, v1). unfold ret.
    by rewrite list_insert_id, state_eta.
  - rewrite length_app. simpl.
    replace (length pre <? length pre + S (length rest)) with true
      by (symmetry; apply Nat.ltb_lt; lia).
    unfold bind at 1. rewrite (array_get_run _ _ _ _ Hv).
    rewrite list_lookup_middle by done. simpl.
    unfold bind at 1, call_equalsEpsilon at 1.
    fold (equalWithinEpsilon objectType v0 v).
    fold (compareCall v0 v).
    set (st1 := {| heap := heap st; trace := _ |}).
    destruct (equalWithinEpsilon objectType v0 v) eqn:Heq; simpl.
    + destruct (IH (pre ++ [v]) fuel st1 acc
                  (length pre + S (length rest)) (length pre + 1) v0 v)
        as (vars & Hrun).
      * simpl. by rewrite <- app_assoc.
      * done.
      * done.
      * rewrite <- app_assoc. simpl. by rewrite length_app.
      * by rewrite length_app.
      * simpl in Hfuel. lia.
      * exists vars.
        rewrite Hrun. subst st1. simpl. by rewrite <- app_assoc.
    + unfold bind at 1, call_clone at 1. simpl.
      unfold bind at 1.
      erewrite array_push_run by (simpl; exact Hc). simpl.
      set (st2 := {| heap := <[cleanedvalues := _]> (heap st); trace := _ |}).
      destruct (IH (pre ++ [v]) fuel st2 (acc ++ [clone objectType v])
                  (length pre + S (length rest)) (length pre + 1) v v)
        as (vars & Hrun).
      * subst st2. simpl. rewrite list_lookup_insert_ne by done.
        by rewrite <- app_assoc.
      * subst st2. simpl. apply list_lookup_insert_eq.
        by eapply lookup_lt_Some.
      * done.
      * rewrite <- app_assoc. simpl. by rewrite length_app.
      * by rewrite length_app.
      * simpl in Hfuel. lia.
      * exists vars.
        rewrite Hrun. subst st2. simpl.
        rewrite list_insert_insert_eq, <- !app_assoc. by simpl.
Qed.

Lemma arrayRemoveDuplicates_calls (objectType : ObjectType V) values
    (wrapAround : option bool) st l :
  heap st !! values = Some l →
  ∃ r h,
    arrayRemoveDuplicates (Some values) (Some objectType) wrapAround st =
      (Normal r,
       {| heap := h;
          trace := trace st ++ calls objectType (defaultValue wrapAround false) l |}).
Proof.
  intros Hv. unfold arrayRemoveDuplicates.
  set (w := defaultValue wrapAround false).
  unfold bind at 1. rewrite (array_length_run _ _ _ Hv).
  destruct l as [|a r].
  { eexists _, _. simpl. unfold ret. by rewrite app_nil_r, state_eta. }
  unfold calls.
  destruct (length (a :: r) <? 2) eqn:Hlen.
  { eexists _, _. unfold ret. by rewrite app_nil_r, state_eta. }
  apply Nat.ltb_ge in Hlen.
  destruct (scanLoop_calls objectType values r [] a (S (length (a :: r))) st
              (length (a :: r)) 1 undefined undefined)
    as (v0 & v1 & Hscan & Hv0); [done|done|done|simpl; lia|].
  unfold bind at 1. rewrite Hscan.
  pose proof (firstDuplicate_bounds objectType r a 1) as Hb.
  set (i := firstDuplicate objectType a r 1) in *.
  set (st1 := {| heap := heap st; trace := _ |}).
  assert (Hv1 : heap st1 !! values = Some (a :: r)) by done.
  destruct (i =? length (a :: r)) eqn:Hi.
  - unfold andM, bind at 1, ret at 1.
    destruct w; simpl.
    + unfold bind at 1, bind at 1. rewrite (array_get_run _ _ _ _ Hv1).
      unfold bind at 1. rewrite (array_length_run _ _ _ Hv1).
      unfold bind at 1. rewrite (array_get_run _ _ _ _ Hv1).
      unfold call_equalsEpsilon at 1.
      fold (firstOf (a :: r)) (lastOf (a :: r)).
      fold (equalWithinEpsilon objectType (firstOf (a :: r)) (lastOf (a :: r))).
      fold (compareCall (firstOf (a :: r)) (lastOf (a :: r))).
      destruct (equalWithinEpsilon objectType _ _).
      * erewrite array_slice_from_run by (simpl; exact Hv).
        eexists _, _. simpl. apply run_trace_eq. by rewrite <- app_assoc.
      * eexists _, _. unfold ret. simpl. apply run_trace_eq.
        by rewrite <- app_assoc.
    + eexists _, _. unfold ret. subst st1. by rewrite app_nil_r.
  - apply Nat.eqb_neq in Hi. simpl in Hb.
    assert (Hlt : i < length (a :: r)) by (simpl in *; lia).
    unfold bind at 1. rewrite (array_slice_run _ _ _ _ _ Hv1).
    rewrite Nat.sub_0_r, drop_0. simpl heap. simpl trace.
    set (c := length (heap st)).
    set (st2 := {| heap := heap st ++ [take i (a :: r)]; trace := _ |}).
    assert (Hvc : values < c) by (by eapply lookup_lt_Some).
    destruct (cleanLoop_calls objectType values c (drop i (a :: r))
                (take i (a :: r)) (S (length (a :: r))) st2
                (take i (a :: r)) (length (a :: r)) i v0 v1)
      as (vars & Hclean).
    { subst st2. simpl heap. rewrite take_drop.
      rewrite lookup_app_l by done. done. }
    { subst st2 c. simpl heap. apply lookup_fresh. }
    { lia. }
    { by rewrite take_drop. }
    { rewrite length_take. lia. }
    { rewrite length_drop. lia. }
    unfold bind at 1. rewrite Hclean. destruct vars as [[i' v0'] v1'].
    change ([] ++ a :: r) with (a :: r) in Hv0.
    rewrite Hv0 by done. fold (cleaned objectType (a :: r) i).
    subst st2. simpl heap. simpl trace. subst c. rewrite insert_fresh.
    set (cl := cleaned objectType (a :: r) i).
    set (st3 := {| heap := heap st ++ [cl]; trace := _ |}).
    assert (Hc3 : heap st3 !! length (heap st) = Some cl)
      by apply lookup_fresh.
    unfold andM at 1, bind at 1, ret at 1.
    destruct w; simpl.
    + unfold andM at 1. unfold bind at 1, bind at 1, bind at 1.
      rewrite (array_length_run _ _ _ Hc3). unfold ret at 1.
      destruct (1 <? length cl); simpl.
      * unfold bind at 1. rewrite (array_get_run _ _ _ _ Hc3).
        unfold bind at 1. rewrite (array_length_run _ _ _ Hc3).
        unfold bind at 1. rewrite (array_get_run _ _ _ _ Hc3).
        unfold call_equalsEpsilon at 1.
        fold (firstOf cl) (lastOf cl).
        fold (equalWithinEpsilon objectType (firstOf cl) (lastOf cl)).
        fold (compareCall (firstOf cl) (lastOf cl)).
        destruct (equalWithinEpsilon objectType _ _).
        -- unfold bind at 1, bind at 1.
           erewrite array_shift_run by (simpl; exact Hc3).
           unfold ret. simpl. eexists _, _. apply run_trace_eq.
           by rewrite <- !app_assoc.
        -- unfold bind, ret. simpl. eexists _, _. apply run_trace_eq.
           by rewrite <- !app_assoc.
      * unfold bind, ret. simpl. eexists _, _. apply run_trace_eq.
        by rewrite app_nil_r, <- !app_assoc.
    + unfold bind, ret. simpl. eexists _, _. apply run_trace_eq.
      by rewrite app_nil_r, <- !app_assoc.
Qed.

End RunCalls.

(** ** Facts about the calls and about where output elements come from *)
Section Origins.
Context {V : Type} `{!Inhabited V}.
Variable objectType : ObjectType V.
Implicit Types (l rest pre post out : list V) (prev a x d : V).

Abbreviation eqE := (equalWithinEpsilon objectType).

(** An output element is an input element or its clone. *)
Abbreviation taken := (λ o p : V, o = p ∨ o = clone objectType p).

Lemma kept_retained rest : ∀ x,
  kept objectType x rest = map (clone objectType) (retained objectType x rest).
Proof.
  induction rest as [|v rest IH]; intros x; simpl; [done|].
  destruct (eqE x v); simpl; by rewrite IH.
Qed.

Lemma retained_sublist rest : ∀ x, sublist (retained objectType x rest) rest.
Proof.
  induction rest as [|v rest IH]; intros x; simpl; [constructor|].
  destruct (eqE x v); by constructor.
Qed.

Lemma retained_length rest : ∀ x,
  length (retained objectType x rest) ≤ length rest.
Proof. intros x. apply sublist_length, retained_sublist. Qed.

Lemma comparisons_app (tr tr' : list (Event V)) :
  comparisons (tr ++ tr') = comparisons tr + comparisons tr'.
Proof. unfold comparisons. by rewrite List.filter_app, length_app. Qed.

Lemma cloned_app (tr tr' : list (Event V)) :
  cloned (tr ++ tr') = cloned tr ++ cloned tr'.
Proof.
  induction tr as [|[a b e|v] tr IH]; simpl; [done|done|]. by rewrite IH.
Qed.

Lemma comparedAt_app eps (tr tr' : list (Event V)) :
  comparedAt eps tr → comparedAt eps tr' → comparedAt eps (tr ++ tr').
Proof.
  intros H H' a b e Hin. apply elem_of_app in Hin as [?|?]; eauto.
Qed.

Lemma comparedAt_nil eps : comparedAt eps (@nil (Event V)).
Proof. intros a b e Hin. by apply elem_of_nil in Hin. Qed.

Lemma comparedAt_cons eps (ev : Event V) tr :
  (∀ a b e, ev = EqualsEpsilonCall a b e → e = eps) →
  comparedAt eps tr → comparedAt eps (ev :: tr).
Proof.
  intros Hev Htr a b e Hin. apply elem_of_cons in Hin as [?|?]; eauto.
Qed.

Lemma scanCalls_cloned rest : ∀ prev, cloned (scanCalls objectType prev rest) = [].
Proof.
  induction rest as [|v rest IH]; intros prev; simpl; [done|].
  by destruct (eqE prev v).
Qed.

Lemma scanCalls_comparisons rest : ∀ prev i,
  comparisons (scanCalls objectType prev rest)
    ≤ S (firstDuplicate objectType prev rest i - i).
Proof.
  induction rest as [|v rest IH]; intros prev i; [unfold comparisons; simpl; lia|].
  change (scanCalls objectType prev (v :: rest))
    with ([compareCall prev v] ++
          (if eqE prev v then [] else scanCalls objectType v rest)).
  rewrite comparisons_app. simpl firstDuplicate.
  destruct (eqE prev v).
  - unfold comparisons. simpl. lia.
  - specialize (IH v (S i)).
    pose proof (firstDuplicate_bounds objectType rest v (S i)).
    unfold comparisons at 1. simpl. lia.
Qed.

Lemma scanCalls_comparedAt rest : ∀ prev,
  comparedAt removeDuplicatesEpsilon (scanCalls objectType prev rest).
Proof.
  induction rest as [|v rest IH]; intros prev; simpl; [apply comparedAt_nil|].
  apply comparedAt_cons; [by intros a b e [= _ _ <-]|].
  destruct (eqE prev v); [apply comparedAt_nil|apply IH].
Qed.

Lemma cleanCalls_cloned rest : ∀ x,
  cloned (cleanCalls objectType x rest) = retained objectType x rest.
Proof.
  induction rest as [|v rest IH]; intros x; simpl; [done|].
  destruct (eqE x v); simpl; by rewrite IH.
Qed.

Lemma cleanCalls_comparisons rest : ∀ x,
  comparisons (cleanCalls objectType x rest) = length rest.
Proof.
  induction rest as [|v rest IH]; intros x; [done|].
  simpl cleanCalls. destruct (eqE x v).
  - change (comparisons (compareCall x v :: cleanCalls objectType x rest))
      with (S (comparisons (cleanCalls objectType x rest))).
    by rewrite IH.
  - change (comparisons
              (compareCall x v :: CloneCall v :: cleanCalls objectType v rest))
      with (S (comparisons (cleanCalls objectType v rest))).
    by rewrite IH.
Qed.

Lemma cleanCalls_comparedAt rest : ∀ x,
  comparedAt removeDuplicatesEpsilon (cleanCalls objectType x rest).
Proof.
  induction rest as [|v rest IH]; intros x; simpl; [apply comparedAt_nil|].
  apply comparedAt_cons; [by intros a b e [= _ _ <-]|].
  destruct (eqE x v); [apply IH|].
  apply comparedAt_cons; [done|apply IH].
Qed.

End Origins.

Section Summary.
Context {V : Type} `{!Inhabited V}.
Implicit Types (st : State V) (l out : list V) (values : loc)
  (objectType : ObjectType V) (wrapAround : option bool).

(** Result, store and trace of a call, together. *)
Lemma run_summary st values objectType wrapAround l :
  heap st !! values = Some l →
  ∃ r st',
    arrayRemoveDuplicates (Some values) (Some objectType) wrapAround st
      = (Normal r, st') ∧
    trace st' = trace st ++ calls objectType (defaultValue wrapAround false) l ∧
    match filtered objectType (defaultValue wrapAround false) l with
    | None => r = values ∧ heap st' = heap st
    | Some out => r = length (heap st) ∧ heap st' = heap st ++ [out]
    end.
Proof.
  intros Hv.
  destruct (arrayRemoveDuplicates_run objectType values wrapAround st l Hv)
    as [tr Hrun].
  destruct (arrayRemoveDuplicates_calls objectType values wrapAround st l Hv)
    as (r & h & Hcalls).
  eexists _, _. split; [exact Hcalls|]. split; [done|].
  rewrite Hcalls in Hrun.
  destruct (filtered objectType (defaultValue wrapAround false) l);
    by injection Hrun as -> -> _.
Qed.

Lemma firstDuplicate_hit objectType rest : ∀ pre prev,
  firstDuplicate objectType prev rest (S (length pre))
    < length (pre ++ prev :: rest) →
  ∃ u v,
    (pre ++ prev :: rest)
      !! (firstDuplicate objectType prev rest (S (length pre)) - 1) = Some u ∧
    (pre ++ prev :: rest)
      !! firstDuplicate objectType prev rest (S (length pre)) = Some v ∧
    equalWithinEpsilon objectType u v = true.
Proof.
  induction rest as [|v rest IH]; intros pre prev; simpl.
  - rewrite length_app. simpl. lia.
  - destruct (equalWithinEpsilon objectType prev v) eqn:Heq.
    + intros _. exists prev, v.
      replace (S (length pre) - 1) with (length pre) by lia.
      split; [by apply list_lookup_middle|]. split; [|done].
      rewrite (lookup_app_r pre) by lia.
      by replace (S (length pre) - length pre) with 1 by lia.
    + intros Hlt. specialize (IH (pre ++ [prev]) v).
      rewrite length_app in IH. simpl in IH.
      replace (length pre + 1) with (S (length pre)) in IH by lia.
      rewrite <- app_assoc in IH. simpl in IH. by apply IH.
Qed.

Lemma calls_bounds objectType (w : bool) l :
  comparisons (calls objectType w l) ≤ length l + (if w then 1 else 0) ∧
  length (cloned (calls objectType w l)) ≤ length l - 2 ∧
  comparedAt removeDuplicatesEpsilon (calls objectType w l) ∧
  (length l < 2 → calls objectType w l = []).
Proof.
  destruct l as [|a r].
  { simpl. split; [unfold comparisons; simpl; lia|]. split; [lia|].
    split; [apply comparedAt_nil|done]. }
  unfold calls. destruct (length (a :: r) <? 2) eqn:Hlen.
  { split; [unfold comparisons; simpl; lia|]. split; [simpl; lia|].
    split; [apply comparedAt_nil|done]. }
  apply Nat.ltb_ge in Hlen.
  pose proof (firstDuplicate_bounds objectType r a 1) as Hb.
  pose proof (scanCalls_comparisons objectType r a 1) as Hscan.
  pose proof (firstDuplicate_hit objectType r [] a) as Hhit.
  simpl in Hhit.
  set (i := firstDuplicate objectType a r 1) in *.
  destruct (i =? length (a :: r)) eqn:Hi; cbv zeta.
  - apply Nat.eqb_eq in Hi. rewrite comparisons_app, cloned_app, scanCalls_cloned.
    split; [|split; [|split]].
    + destruct w; unfold comparisons at 2; simpl in *; lia.
    + destruct w; simpl; lia.
    + apply comparedAt_app; [apply scanCalls_comparedAt|].
      destruct w; [|apply comparedAt_nil].
      apply comparedAt_cons; [by intros ? ? ? [= _ _ <-]|apply comparedAt_nil].
    + lia.
  - apply Nat.eqb_neq in Hi.
    assert (Hlt : i < length (a :: r)) by (simpl in *; lia).
    destruct (Hhit Hlt) as (u & v & Hu & Hv & Heq).
    rewrite !comparisons_app, !cloned_app, scanCalls_cloned, cleanCalls_cloned,
      cleanCalls_comparisons, length_drop, Hu.
    simpl default.
    split; [|split; [|split]].
    + match goal with
      | |- context [comparisons (if ?c then ?t else [])] =>
          assert (comparisons (if c then t else []) ≤ (if w then 1 else 0))
            by (destruct w; simpl; [destruct (1 <? _)|];
                unfold comparisons; simpl; lia)
      end.
      simpl in *. lia.
    + rewrite (drop_S _ v i Hv). simpl retained. rewrite Heq.
      pose proof (retained_length objectType (drop (S i) (a :: r)) u) as Hr.
      rewrite length_drop in Hr.
      destruct (w && _); simpl; rewrite ?app_nil_r, ?length_app; simpl in *; lia.
    + apply comparedAt_app; [apply scanCalls_comparedAt|].
      apply comparedAt_app; [apply cleanCalls_comparedAt|].
      destruct (w && _); [|apply comparedAt_nil].
      apply comparedAt_cons; [by intros ? ? ? [= _ _ <-]|apply comparedAt_nil].
    + lia.
Qed.

End Summary.

Section OutputFacts.
Context {V : Type} `{!Inhabited V}.
Variable objectType : ObjectType V.
Implicit Types (l rest pre post out : list V) (prev a x d : V).

Abbreviation eqE := (equalWithinEpsilon objectType).
Abbreviation taken := (λ o p : V, o = p ∨ o = clone objectType p).

Lemma filtered_Some_shorter (w : bool) l out :
  filtered objectType w l = Some out → length out < length l.
Proof.
  intros Hf. destruct l as [|a r]; [done|]. rewrite filtered_cons in Hf.
  destruct (length (a :: r) <? 2) eqn:Hlen; [done|].
  destruct (cleanFrom objectType a r) eqn:Hclean.
  - destruct (w && _); [|done]. injection Hf as <-. simpl. lia.
  - injection Hf as <-.
    pose proof (survivors_length_lt objectType r a Hclean).
    unfold wrapped. destruct (w && _ && _); simpl; lia.
Qed.

Lemma taken_same l : Forall2 taken l l.
Proof. induction l; constructor; auto. Qed.

Lemma taken_clones l : Forall2 taken (map (clone objectType) l) l.
Proof. induction l; constructor; auto. Qed.

Lemma survivors_origin rest : ∀ prev,
  ∃ from, sublist from rest ∧ Forall2 taken (survivors objectType prev rest) from.
Proof.
  induction rest as [|v rest IH]; intros prev; simpl.
  - exists []. split; constructor.
  - destruct (eqE prev v).
    + exists (retained objectType prev rest). split.
      * constructor. apply retained_sublist.
      * rewrite kept_retained. apply taken_clones.
    + destruct (IH v) as (from & Hsub & Htaken).
      exists (v :: from). split; constructor; auto.
Qed.

Lemma sublist_tail (from l : list V) : sublist from l → sublist (tail from) l.
Proof.
  intros Hsub. etrans; [|exact Hsub].
  destruct from; simpl; [done|]. by constructor.
Qed.

Lemma taken_tail out (from : list V) :
  Forall2 taken out from → Forall2 taken (tail out) (tail from).
Proof. intros [|]; simpl; [constructor|done]. Qed.

Lemma output_origin (w : bool) l :
  ∃ from, sublist from l ∧
          Forall2 taken (default l (filtered objectType w l)) from.
Proof.
  destruct l as [|a r].
  { exists []. split; constructor. }
  rewrite filtered_cons. destruct (length (a :: r) <? 2).
  { exists (a :: r). split; [done|apply taken_same]. }
  destruct (cleanFrom objectType a r).
  - destruct (w && _); simpl.
    + exists r. split; [by constructor|apply taken_same].
    + exists (a :: r). split; [done|apply taken_same].
  - destruct (survivors_origin r a) as (from & Hsub & Htaken). simpl.
    assert (Hall : Forall2 taken (a :: survivors objectType a r) (a :: from))
      by (constructor; auto).
    assert (Hsuball : sublist (a :: from) (a :: r)) by (by constructor).
    unfold wrapped. destruct (w && _ && _).
    + exists (tail (a :: from)).
      split; [by apply sublist_tail|by apply (taken_tail _ _ Hall)].
    + by exists (a :: from).
Qed.

Lemma kept_cover rest : ∀ (v0 x : V),
  x ∈ rest →
  eqE v0 x = true ∨
  clone objectType x ∈ kept objectType v0 rest ∨
  ∃ y, y ∈ rest ∧ clone objectType y ∈ kept objectType v0 rest ∧ eqE y x = true.
Proof.
  induction rest as [|v rest IH]; intros v0 x Hin.
  { by apply elem_of_nil in Hin. }
  simpl. apply elem_of_cons in Hin as [->|Hin].
  - destruct (eqE v0 v) eqn:Heq; [by left|].
    right. left. apply elem_of_cons. by left.
  - destruct (eqE v0 v) eqn:Heq.
    + destruct (IH v0 x Hin) as [?|[?|(y & Hy & Hk & Hyx)]]; [by left|by right; left|].
      right. right. exists y. split; [by apply elem_of_cons; right|done].
    + destruct (IH v x Hin) as [Hvx|[?|(y & Hy & Hk & Hyx)]].
      * right. right. exists v.
        split; [by apply elem_of_cons; left|].
        split; [by apply elem_of_cons; left|done].
      * right. left. apply elem_of_cons. by right.
      * right. right. exists y. split; [by apply elem_of_cons; right|].
        split; [by apply elem_of_cons; right|done].
Qed.

Lemma survivors_cover rest : ∀ prev x,
  x ∈ rest →
  eqE prev x = true ∨
  (x ∈ survivors objectType prev rest ∨
   clone objectType x ∈ survivors objectType prev rest) ∨
  ∃ y, y ∈ rest ∧
       (y ∈ survivors objectType prev rest ∨
        clone objectType y ∈ survivors objectType prev rest) ∧
       eqE y x = true.
Proof.
  induction rest as [|v rest IH]; intros prev x Hin.
  { by apply elem_of_nil in Hin. }
  simpl. destruct (eqE prev v) eqn:Heq.
  - apply elem_of_cons in Hin as [->|Hin]; [by left|].
    destruct (kept_cover rest prev x Hin) as [?|[?|(y & Hy & Hk & Hyx)]];
      [by left|by right; left; right|].
    right. right. exists y. split; [by apply elem_of_cons; right|]. by split; [right|].
  - apply elem_of_cons in Hin as [->|Hin].
    { right. left. left. apply elem_of_cons. by left. }
    destruct (IH v x Hin) as [Hvx|[[?|?]|(y & Hy & Hk & Hyx)]].
    + right. right. exists v. split; [by apply elem_of_cons; left|].
      split; [|done]. left. apply elem_of_cons. by left.
    + right. left. left. apply elem_of_cons. by right.
    + right. left. right. apply elem_of_cons. by right.
    + right. right. exists y. split; [by apply elem_of_cons; right|].
      split; [|done]. destruct Hk; [left|right]; apply elem_of_cons; by right.
Qed.

Lemma firstDuplicate_at x d post pre : ∀ prev i,
  cleanFrom objectType prev (pre ++ [x]) = true →
  eqE x d = true →
  firstDuplicate objectType prev (pre ++ x :: d :: post) i = i + length pre + 1.
Proof.
  induction pre as [|v pre IH]; intros prev i Hclean Hxd; simpl in *.
  - apply andb_true_iff in Hclean as [Hpx _]. apply negb_true_iff in Hpx.
    rewrite Hpx, Hxd. lia.
  - apply andb_true_iff in Hclean as [Hpv Hclean]. apply negb_true_iff in Hpv.
    rewrite Hpv, (IH v (S i)) by done. lia.
Qed.

(** An input whose first adjacent duplicate is [x], [d]: what the function
    allocates with [wrapAround] false, and what it clones. *)
Lemma first_duplicate_split (w : bool) pre x d post :
  NoAdjacentDuplicates objectType (pre ++ [x]) →
  eqE x d = true →
  filtered objectType false (pre ++ x :: d :: post) =
    Some (pre ++ x :: map (clone objectType) (retained objectType x post)) ∧
  cloned (calls objectType w (pre ++ x :: d :: post)) = retained objectType x post.
Proof.
  intros Hclean Hxd.
  assert (Hi : ∃ a r, pre ++ x :: d :: post = a :: r ∧
                      firstDuplicate objectType a r 1 = S (length pre)).
  { destruct pre as [|p pre]; simpl.
    - exists x, (d :: post). split; [done|]. simpl. by rewrite Hxd.
    - exists p, (pre ++ x :: d :: post). split; [done|].
      apply NoAdjacentDuplicates_cons in Hclean.
      rewrite firstDuplicate_at by done. lia. }
  destruct Hi as (a & r & Hl & Hi).
  assert (Hlen : length (a :: r) = length pre + S (S (length post)))
    by (rewrite <- Hl, length_app; done).
  assert (Htake : take (S (length pre)) (a :: r) = pre ++ [x]).
  { rewrite <- Hl, (cons_middle x pre), app_assoc.
    replace (S (length pre)) with (length (pre ++ [x]))
      by (rewrite length_app; simpl; lia).
    apply take_app_length. }
  assert (Hdrop : drop (S (length pre)) (a :: r) = d :: post).
  { rewrite <- Hl, (cons_middle x pre), app_assoc.
    replace (S (length pre)) with (length (pre ++ [x]))
      by (rewrite length_app; simpl; lia).
    apply drop_app_length. }
  assert (Hat : (a :: r) !! (S (length pre) - 1) = Some x).
  { rewrite <- Hl. replace (S (length pre) - 1) with (length pre) by lia.
    by apply list_lookup_middle. }
  rewrite Hl. unfold filtered, calls. rewrite Hi.
  replace (length (a :: r) <? 2) with false
    by (symmetry; apply Nat.ltb_ge; lia).
  replace (S (length pre) =? length (a :: r)) with false
    by (symmetry; apply Nat.eqb_neq; lia).
  unfold cleaned. rewrite Htake, Hdrop, Hat. simpl default. simpl kept.
  simpl cleanCalls. rewrite Hxd. split.
  - unfold wrapped. simpl andb. cbv iota.
    by rewrite kept_retained, <- app_assoc.
  - rewrite !cloned_app, scanCalls_cloned. simpl cloned.
    rewrite cleanCalls_cloned. destruct (w && _); simpl; by rewrite app_nil_r.
Qed.

End OutputFacts.

(** ** Further properties of [arrayRemoveDuplicates] *)
Section FurtherProperties.
Context {V : Type} `{!Inhabited V}.
Implicit Types (st : State V) (l out : list V) (values : loc)
  (objectType : ObjectType V) (wrapAround : option bool).

(** X1: a call changes no array that was in the store, the input
    included: [push] and [shift] act on the array the call has allocated
    itself.  Either the store is as it was and the reference returned is
    the input's, or the store has grown by exactly one array and the
    reference returned is that of the new array, which was not allocated
    before the call. *)
Theorem store_only_grows st values objectType wrapAround l :
  heap st !! values = Some l →
  ∃ r st',
    arrayRemoveDuplicates (Some values) (Some objectType) wrapAround st
      = (Normal r, st') ∧
    (∀ a la, heap st !! a = Some la → heap st' !! a = Some la) ∧
    (r = values ∧ heap st' = heap st ∨
     ∃ out, heap st !! r = None ∧
            heap st' = heap st ++ [out] ∧
            heap st' !! r = Some out).
Proof.
  intros Hv.
  destruct (run_summary st values objectType wrapAround l Hv)
    as (r & st' & Hrun & _ & Hres).
  exists r, st'. split; [done|].
  destruct (filtered objectType (defaultValue wrapAround false) l) as [out|].
  - destruct Hres as [-> ->]. split.
    + intros a la Ha. by apply lookup_app_l_Some.
    + right. exists out. split; [by apply lookup_ge_None_2|].
      split; [done|apply lookup_fresh].
  - destruct Hres as [-> ->]. split; [done|by left].
Qed.

(** X2: the call returns the reference it was given exactly when the
    output is as long as the input, and then the output is the input and
    the store is as it was; it returns a reference that was not allocated
    before the call, to an array added to the store, exactly when the
    output is shorter than the input. *)
Theorem same_reference_iff_nothing_removed st values objectType wrapAround l :
  heap st !! values = Some l →
  ∃ r st' out,
    arrayRemoveDuplicates (Some values) (Some objectType) wrapAround st
      = (Normal r, st') ∧
    heap st' !! r = Some out ∧
    (r = values ↔ length out = length l) ∧
    (r = values → out = l ∧ heap st' = heap st) ∧
    (heap st !! r = None ∧ heap st' = heap st ++ [out]
     ↔ length out < length l).
Proof.
  intros Hv.
  destruct (run_summary st values objectType wrapAround l Hv)
    as (r & st' & Hrun & _ & Hres).
  destruct (filtered objectType (defaultValue wrapAround false) l) as [out|] eqn:Hf.
  - destruct Hres as [-> Hheap]. exists (length (heap st)), st', out.
    split; [done|]. split; [rewrite Hheap; apply lookup_fresh|].
    apply filtered_Some_shorter in Hf. pose proof (lookup_lt_Some _ _ _ Hv).
    split; [split; lia|]. split; [lia|].
    split; [done|]. intros _. split; [by apply lookup_ge_None_2|done].
  - destruct Hres as [-> Hheap]. exists values, st', l.
    split; [done|]. split; [by rewrite Hheap|]. split; [done|].
    split; [done|]. split; [|lia]. intros [Hnone _]. congruence.
Qed.

(** X3: the output is made of input elements in their input order, each
    one either the input's own element or its clone: nothing is reordered
    and nothing is added. *)
Theorem output_is_subsequence st values objectType wrapAround l :
  heap st !! values = Some l →
  ∃ out from,
    outputs st values objectType wrapAround out ∧
    sublist from l ∧
    Forall2 (λ o p, o = p ∨ o = clone objectType p) out from.
Proof.
  intros Hv.
  destruct (output_origin objectType (defaultValue wrapAround false) l)
    as (from & Hsub & Htaken).
  eexists _, from. split; [by apply outputs_filtered|]. by split.
Qed.

(** X4: when the first adjacent duplicate of the input is the pair [x],
    [d], the output for [wrapAround] false starts with the input's own
    elements up to [x], and goes on with clones of elements from after
    [d], in order; [clone] is called on exactly those, once each and in
    that order. *)
Theorem prefix_shared_rest_cloned st values objectType wrapAround pre x d post :
  heap st !! values = Some (pre ++ x :: d :: post) →
  NoAdjacentDuplicates objectType (pre ++ [x]) →
  equalsEpsilon objectType x d removeDuplicatesEpsilon = true →
  defaultValue wrapAround false = false →
  ∃ r st' after made,
    arrayRemoveDuplicates (Some values) (Some objectType) wrapAround st
      = (Normal r, st') ∧
    heap st' !! r = Some (pre ++ x :: map (clone objectType) after) ∧
    sublist after post ∧
    trace st' = trace st ++ made ∧
    cloned made = after.
Proof.
  intros Hv Hclean Hxd Hw.
  destruct (run_summary st values objectType wrapAround _ Hv)
    as (r & st' & Hrun & Htrace & Hres).
  destruct (first_duplicate_split objectType false pre x d post Hclean Hxd)
    as [Hf Hcloned].
  rewrite Hw in *. rewrite Hf in Hres. destruct Hres as [-> Hheap].
  eexists _, st', _, _. split; [done|].
  split; [rewrite Hheap; apply lookup_fresh|].
  split; [apply retained_sublist|]. by split.
Qed.

(** X5: with [wrapAround] false every input element is in the output,
    itself or as a clone, or compares equal within epsilon to an input
    element that is. *)
Theorem dropped_elements_are_covered st values objectType wrapAround l :
  heap st !! values = Some l →
  defaultValue wrapAround false = false →
  ∃ out,
    outputs st values objectType wrapAround out ∧
    ∀ x, x ∈ l →
      (x ∈ out ∨ clone objectType x ∈ out) ∨
      ∃ y, y ∈ l ∧ (y ∈ out ∨ clone objectType y ∈ out) ∧
           equalsEpsilon objectType y x removeDuplicatesEpsilon = true.
Proof.
  intros Hv Hw. eexists. split; [by apply outputs_filtered|].
  rewrite Hw. intros x Hin. destruct l as [|a r].
  { by apply elem_of_nil in Hin. }
  rewrite output_without_wrapAround.
  apply elem_of_cons in Hin as [->|Hin].
  { left. left. apply elem_of_cons. by left. }
  destruct (survivors_cover objectType r a x Hin)
    as [Hax|[[?|?]|(y & Hy & Hk & Hyx)]].
  - right. exists a. split; [by apply elem_of_cons; left|].
    split; [|done]. left. apply elem_of_cons. by left.
  - left. left. apply elem_of_cons. by right.
  - left. right. apply elem_of_cons. by right.
  - right. exists y. split; [by apply elem_of_cons; right|].
    split; [|done]. destruct Hk; [left|right]; apply elem_of_cons; by right.
Qed.

(** X6: on an input of [n] elements a call makes at most [n + 1] calls
    of [equalsEpsilon], at most [n] when [wrapAround] is false, and at most
    [n - 2] calls of [clone]; every comparison is made at the tolerance
    [removeDuplicatesEpsilon]; on an input of fewer than two elements it
    calls neither. *)
Theorem calls_are_bounded st values objectType wrapAround l :
  heap st !! values = Some l →
  ∃ r st' made,
    arrayRemoveDuplicates (Some values) (Some objectType) wrapAround st
      = (Normal r, st') ∧
    trace st' = trace st ++ made ∧
    comparisons made ≤ length l + 1 ∧
    (defaultValue wrapAround false = false → comparisons made ≤ length l) ∧
    length (cloned made) ≤ length l - 2 ∧
    comparedAt removeDuplicatesEpsilon made ∧
    (length l < 2 → made = []).
Proof.
  intros Hv.
  destruct (run_summary st values objectType wrapAround l Hv)
    as (r & st' & Hrun & Htrace & _).
  destruct (calls_bounds objectType (defaultValue wrapAround false) l)
    as (Hcmp & Hcl & Hat & Hshort).
  assert (Hcmp1 : comparisons (calls objectType (defaultValue wrapAround false) l)
                    ≤ length l + 1)
    by (revert Hcmp; destruct (defaultValue wrapAround false); lia).
  eexists r, st', _. split; [done|]. split; [done|].
  split; [done|].
  split; [intros Hw; rewrite Hw in Hcmp |- *; simpl in Hcmp; lia|]. done.
Qed.

(** X7: with [wrapAround] false the output starts with the first element
    of the input, the input's own and not a clone. *)
Theorem first_element_is_kept st values objectType wrapAround l :
  heap st !! values = Some l →
  defaultValue wrapAround false = false →
  ∃ out, outputs st values objectType wrapAround out ∧ head out = head l.
Proof.
  intros Hv Hw. eexists. split; [by apply outputs_filtered|].
  rewrite Hw. destruct l as [|a r]; [done|].
  by rewrite output_without_wrapAround.
Qed.

(** X8: an input of two or more elements that all compare equal within
    epsilon to the first one yields a new array that holds the input's
    first element alone, whatever [wrapAround] is. *)
Theorem all_equal_collapse_to_first st values objectType wrapAround a r :
  heap st !! values = Some (a :: r) →
  r ≠ [] →
  Forall (λ d, equalsEpsilon objectType a d removeDuplicatesEpsilon = true) r →
  returnsNew st values objectType wrapAround [a].
Proof.
  intros Hv Hne Hall.
  pose proof (arrayRemoveDuplicates_filtered st values objectType wrapAround _ Hv)
    as Hres.
  destruct r as [|d r]; [done|]. rewrite filtered_cons in Hres.
  apply Forall_cons in Hall as [Had Hall].
  fold (equalWithinEpsilon objectType a d) in Had.
  simpl in Hres. rewrite Had in Hres. simpl in Hres.
  pose proof (kept_skip objectType a r [] Hall) as Hk.
  rewrite app_nil_r in Hk. simpl in Hk. rewrite Hk in Hres.
  unfold wrapped in Hres. simpl in Hres. by rewrite andb_false_r in Hres.
Qed.

End FurtherProperties.

(** ** The further properties at concrete arrays *)

Lemma store_only_grows_witness :
  ∃ r st',
    arrayRemoveDuplicates (Some 0) (Some Cartesian3.objectType) (Some true)
      (store Examples.documented) = (Normal r, st') ∧
    (∀ a la, heap (store Examples.documented) !! a = Some la →
             heap st' !! a = Some la) ∧
    (r = 0 ∧ heap st' = heap (store Examples.documented) ∨
     ∃ out, heap (store Examples.documented) !! r = None ∧
            heap st' = heap (store Examples.documented) ++ [out] ∧
            heap st' !! r = Some out).
Proof.
  apply (store_only_grows (store Examples.documented) 0 Cartesian3.objectType
           (Some true) Examples.documented).
  reflexivity.
Defined.

Lemma same_reference_iff_nothing_removed_witness :
  ∃ r st' out,
    arrayRemoveDuplicates (Some 0) (Some Cartesian3.objectType) None
      (store Examples.innerRun) = (Normal r, st') ∧
    heap st' !! r = Some out ∧
    (r = 0 ↔ length out = length Examples.innerRun) ∧
    (r = 0 → out = Examples.innerRun ∧
             heap st' = heap (store Examples.innerRun)) ∧
    (heap (store Examples.innerRun) !! r = None ∧
     heap st' = heap (store Examples.innerRun) ++ [out]
     ↔ length out < length Examples.innerRun).
Proof.
  apply (same_reference_iff_nothing_removed (store Examples.innerRun) 0
           Cartesian3.objectType None Examples.innerRun).
  reflexivity.
Defined.

Lemma output_is_subsequence_witness :
  ∃ out from,
    outputs (store Examples.documented) 0 Cartesian3.objectType (Some true) out ∧
    sublist from Examples.documented ∧
    Forall2 (λ o p, o = p ∨ o = clone Cartesian3.objectType p) out from.
Proof.
  apply (output_is_subsequence (store Examples.documented) 0
           Cartesian3.objectType (Some true) Examples.documented).
  reflexivity.
Defined.

Lemma prefix_shared_rest_cloned_witness :
  ∃ r st' after made,
    arrayRemoveDuplicates (Some 0) (Some Cartesian3.objectType) None
      (store Examples.innerRun) = (Normal r, st') ∧
    heap st' !! r =
      Some ([Cartesian3.point 1 0 0] ++ Cartesian3.point 2 0 0
              :: map (clone Cartesian3.objectType) after) ∧
    sublist after [Cartesian3.point 3 0 0] ∧
    trace st' = trace (store Examples.innerRun) ++ made ∧
    cloned made = after.
Proof.
  apply (prefix_shared_rest_cloned (store Examples.innerRun) 0
           Cartesian3.objectType None [Cartesian3.point 1 0 0]
           (Cartesian3.point 2 0 0) (Cartesian3.point 2 0 0)
           [Cartesian3.point 3 0 0]).
  - reflexivity.
  - apply NoAdjacentDuplicates_cons. vm_compute. reflexivity.
  - reflexivity.
  - reflexivity.
Defined.

Lemma dropped_elements_are_covered_witness :
  ∃ out,
    outputs (store Examples.shadowedRun) 0 Cartesian3.objectType (Some false) out ∧
    ∀ x, x ∈ Examples.shadowedRun →
      (x ∈ out ∨ clone Cartesian3.objectType x ∈ out) ∨
      ∃ y, y ∈ Examples.shadowedRun ∧
           (y ∈ out ∨ clone Cartesian3.objectType y ∈ out) ∧
           equalsEpsilon Cartesian3.objectType y x removeDuplicatesEpsilon = true.
Proof.
  apply (dropped_elements_are_covered (store Examples.shadowedRun) 0
           Cartesian3.objectType (Some false) Examples.shadowedRun).
  - reflexivity.
  - reflexivity.
Defined.

Lemma calls_are_bounded_witness :
  ∃ r st' made,
    arrayRemoveDuplicates (Some 0) (Some Cartesian3.objectType) (Some true)
      (store Examples.documented) = (Normal r, st') ∧
    trace st' = trace (store Examples.documented) ++ made ∧
    comparisons made ≤ length Examples.documented + 1 ∧
    (defaultValue (Some true) false = false →
     comparisons made ≤ length Examples.documented) ∧
    length (cloned made) ≤ length Examples.documented - 2 ∧
    comparedAt removeDuplicatesEpsilon made ∧
    (length Examples.documented < 2 → made = []).
Proof.
  apply (calls_are_bounded (store Examples.documented) 0 Cartesian3.objectType
           (Some true) Examples.documented).
  reflexivity.
Defined.

Lemma first_element_is_kept_witness :
  ∃ out,
    outputs (store Examples.innerRun) 0 Cartesian3.objectType (Some false) out ∧
    head out = head Examples.innerRun.
Proof.
  apply (first_element_is_kept (store Examples.innerRun) 0
           Cartesian3.objectType (Some false) Examples.innerRun).
  - reflexivity.
  - reflexivity.
Defined.

Lemma all_equal_collapse_to_first_witness :
  returnsNew
    (store [Cartesian3.point 5 0 0; Cartesian3.point 5 0 0; Cartesian3.point 5 0 0])
    0 Cartesian3.objectType (Some true) [Cartesian3.point 5 0 0].
Proof.
  apply (all_equal_collapse_to_first _ 0 Cartesian3.objectType (Some true)
           (Cartesian3.point 5 0 0)
           [Cartesian3.point 5 0 0; Cartesian3.point 5 0 0]).
  - reflexivity.
  - discriminate.
  - repeat constructor.
Defined.
